(** * Book catalogue client ([src/App.jsx]): session state, handlers, and
      the properties of the fetch / create / delete cycle.

    The component keeps eight pieces of React state and three asynchronous
    handlers ([fetchBooks], [handleSubmit], [handleDelete]) that talk to a
    REST backend.  The development below embeds

    - JavaScript strings, [String.prototype.trim], [Set] and the default
      [Array.prototype.sort] as far as the derived [categories] list needs;
    - the handlers as finite trees of setter calls and awaited requests,
      built with [try]/[catch]/[finally] combinators;
    - the event loop: user events and request settlements applied one at a
      time to a world made of the React state, the suspended handlers and
      the log of everything the handlers did. *)

From Stdlib Require Import Strings.String Strings.Ascii NArith ZArith.
From Stdlib Require Import Structures.OrdersEx.
From stdpp Require Import base tactics option list strings sorting.

Local Open Scope string_scope.
Local Open Scope list_scope.

(** ** JavaScript strings

    A JavaScript string is a sequence of UTF-16 code units.  The model keeps
    one [ascii] per code unit, that is the code units below 256; the default
    sort order and [trim] are defined on code units, so nothing else of a
    string matters here. *)

Module JS.

(** [ToBoolean] on a string: only the empty string is falsy. *)
Definition truthy (s : string) : bool :=
  match s with
  | EmptyString => false
  | String _ _ => true
  end.

(** [a || b] on strings. *)
Definition or (a b : string) : string := if truthy a then a else b.

(** White space and line terminators stripped by [trim], among the code
    units below 256: TAB, LF, VT, FF, CR, SP and NBSP. *)
Definition is_space (c : ascii) : bool :=
  match N_of_ascii c with
  | 9 | 10 | 11 | 12 | 13 | 32 | 160 => true
  | _ => false
  end%N.

Fixpoint trimStart (s : string) : string :=
  match s with
  | EmptyString => EmptyString
  | String c s' => if is_space c then trimStart s' else s
  end.

Fixpoint trimEnd (s : string) : string :=
  match s with
  | EmptyString => EmptyString
  | String c s' =>
      match trimEnd s' with
      | EmptyString => if is_space c then EmptyString else String c EmptyString
      | r => String c r
      end
  end.

(** [s.trim()] *)
Definition trim (s : string) : string := trimEnd (trimStart s).

(** [set.add(x)]: a [Set] remembers insertion order and ignores a value it
    already holds. *)
Definition Set_has (s : list string) (x : string) : bool :=
  existsb (String.eqb x) s.

Definition Set_add (s : list string) (x : string) : list string :=
  if Set_has s x then s else s ++ [x].

(** [Array.from(new Set(xs))] *)
Definition Set_of (xs : list string) : list string := foldl Set_add [] xs.

(** The default comparator of [sort]: strings are compared code unit by
    code unit, a proper prefix first. *)
Definition before (x y : string) : bool :=
  match String.compare x y with
  | Gt => false
  | _ => true
  end.

Fixpoint sort_insert (x : string) (l : list string) : list string :=
  match l with
  | [] => [x]
  | y :: l' => if before x y then x :: l else y :: sort_insert x l'
  end.

(** [xs.sort()] with no comparator.  The language leaves the algorithm to
    the engine; any of them returns the ordered arrangement of the
    elements, computed here by insertion. *)
Definition sort (xs : list string) : list string := foldr sort_insert [] xs.

End JS.

(** ** Data model *)

(** A book id comes out of the JSON the backend sends: a number or a string.
    [===] never converts between the two. *)
Inductive BookId : Type :=
| IdNum (n : Z)
| IdStr (s : string).

Global Instance BookId_eq_dec : EqDecision BookId.
Proof. solve_decision. Defined.

Module Book.
Record t : Type := mk {
  id : BookId;
  title : string;
  author : string;
  category : string;
  description : string;
  text_summary : string;
  cover_image_url : string;
  audio_summary_url : string;
}.
End Book.

Module Form.
Record t : Type := mk {
  title : string;
  author : string;
  category : string;
  description : string;
  text_summary : string;
  cover_image_url : string;
  audio_summary_url : string;
}.

(** The controls of the form, one per field. *)
Inductive field : Type :=
| Title | Author | Category | CoverImageUrl | AudioSummaryUrl
| Description | TextSummary.

(** [{ ...form, fld: value }] *)
Definition set (fld : field) (value : string) (form : t) : t :=
  match fld with
  | Title => mk value (author form) (category form) (description form)
               (text_summary form) (cover_image_url form) (audio_summary_url form)
  | Author => mk (title form) value (category form) (description form)
               (text_summary form) (cover_image_url form) (audio_summary_url form)
  | Category => mk (title form) (author form) value (description form)
               (text_summary form) (cover_image_url form) (audio_summary_url form)
  | Description => mk (title form) (author form) (category form) value
               (text_summary form) (cover_image_url form) (audio_summary_url form)
  | TextSummary => mk (title form) (author form) (category form) (description form)
               value (cover_image_url form) (audio_summary_url form)
  | CoverImageUrl => mk (title form) (author form) (category form) (description form)
               (text_summary form) value (audio_summary_url form)
  | AudioSummaryUrl => mk (title form) (author form) (category form) (description form)
               (text_summary form) (cover_image_url form) value
  end.
End Form.

Definition emptyForm : Form.t :=
  {| Form.title := "";
     Form.author := "";
     Form.category := "";
     Form.description := "";
     Form.text_summary := "";
     Form.cover_image_url := "";
     Form.audio_summary_url := "" |}.

(** ** Derived category options *)

(** [new Set(books.map(b => (b.category || '').trim()).filter(Boolean))],
    then [Array.from(set).sort()]. *)
Definition categories (books : list Book.t) : list string :=
  let set :=
    JS.Set_of
      (List.filter JS.truthy
         (List.map (fun b => JS.trim (JS.or (Book.category b) "")) books)) in
  JS.sort set.

(** The same list in the words of the specification:
    [sort(dedupe(trim(b.category) for b in bookList if trim(b.category) != ""))],
    with the lexicographic order on code units. *)
Definition lex_le (x y : string) : Prop := String.compare x y ≠ Gt.

Global Instance lex_le_dec : RelDecision lex_le.
Proof. intros x y. unfold lex_le. solve_decision. Defined.

Definition spec_categories (bookList : list Book.t) : list string :=
  merge_sort lex_le
    (remove_dups
       (filter (λ c, c ≠ "") ((λ b, JS.trim (Book.category b)) <$> bookList))).


(** ** Session state

    The eight [useState] cells of the component, and their setters.  Every
    setter in the source is called with a plain value, never with an updater
    function, so a call is the name of the cell and the value written. *)

Record State : Type := mkState {
  form : Form.t;
  loading : bool;
  submitting : bool;
  error : string;
  books : list Book.t;
  query : string;
  categoryFilter : string;
  expandedId : option BookId;
}.

Definition initialState : State :=
  {| form := emptyForm; loading := false; submitting := false; error := "";
     books := []; query := ""; categoryFilter := ""; expandedId := None |}.

Inductive Setter : Type :=
| setForm (v : Form.t)
| setLoading (v : bool)
| setSubmitting (v : bool)
| setError (v : string)
| setBooks (v : list Book.t)
| setQuery (v : string)
| setCategoryFilter (v : string)
| setExpandedId (v : option BookId).

Definition update (s : Setter) (st : State) : State :=
  match s with
  | setForm v =>
      mkState v (loading st) (submitting st) (error st) (books st)
        (query st) (categoryFilter st) (expandedId st)
  | setLoading v =>
      mkState (form st) v (submitting st) (error st) (books st)
        (query st) (categoryFilter st) (expandedId st)
  | setSubmitting v =>
      mkState (form st) (loading st) v (error st) (books st)
        (query st) (categoryFilter st) (expandedId st)
  | setError v =>
      mkState (form st) (loading st) (submitting st) v (books st)
        (query st) (categoryFilter st) (expandedId st)
  | setBooks v =>
      mkState (form st) (loading st) (submitting st) (error st) v
        (query st) (categoryFilter st) (expandedId st)
  | setQuery v =>
      mkState (form st) (loading st) (submitting st) (error st) (books st)
        v (categoryFilter st) (expandedId st)
  | setCategoryFilter v =>
      mkState (form st) (loading st) (submitting st) (error st) (books st)
        (query st) v (expandedId st)
  | setExpandedId v =>
      mkState (form st) (loading st) (submitting st) (error st) (books st)
        (query st) (categoryFilter st) v
  end.

(** [expandedId === b.id], the test the list uses to show a book's summary
    and to label its button. *)
Definition expanded (st : State) (b : Book.t) : bool :=
  bool_decide (expandedId st = Some (Book.id b)).

(** ** Requests and their settlement *)

Module URLSearchParams.
Definition t : Type := list (string * string).

(** [params.set(name, value)]: the first entry called [name] takes the
    value and the others go; with no such entry, one is appended. *)
Fixpoint set (params : t) (name value : string) : t :=
  match params with
  | [] => [(name, value)]
  | (n, v) :: rest =>
      if String.eqb n name
      then (name, value) :: List.filter (fun e => negb (String.eqb (fst e) name)) rest
      else (n, v) :: set rest name value
  end.
End URLSearchParams.

(** The three calls to [fetch]: the URL path with its query, the method and
    the body. *)
Inductive Request : Type :=
| GET_books (params : URLSearchParams.t)
| POST_books (body : Form.t)
| DELETE_book (id : BookId).

(** How a promise settles.  A rejection carries the [message] of the error
    it rejects with. *)
Inductive Settled (A : Type) : Type :=
| Fulfilled (value : A)
| Rejected (message : string).
Arguments Fulfilled {A} value.
Arguments Rejected {A} message.

(** A response: [res.ok], and what [res.text()] and [res.json()] settle to.
    The handlers do nothing between receiving a response and reading its
    body, so the body comes with the response and the two waits count as
    one. *)
Record Response : Type := mkResponse {
  ok : bool;
  text : Settled string;
  json : Settled (list Book.t);
}.

(** ** Asynchronous functions

    The body of an [async] function up to its end: it returns, throws,
    calls a setter and goes on, or awaits a request and goes on with the
    settlement. *)
Inductive Async (A : Type) : Type :=
| Return (a : A)
| Throw (message : string)
| Call (s : Setter) (k : Async A)
| Await (r : Request) (k : Settled Response → Async A).
Arguments Return {A} a.
Arguments Throw {A} message.
Arguments Call {A} s k.
Arguments Await {A} r k.

Fixpoint bind {A B} (p : Async A) (f : A → Async B) : Async B :=
  match p with
  | Return a => f a
  | Throw m => Throw m
  | Call s k => Call s (bind k f)
  | Await r k => Await r (fun o => bind (k o) f)
  end.

Global Instance Async_ret : MRet Async := λ A a, Return a.
Global Instance Async_bind : MBind Async := λ A B f p, bind p f.

(** [try { p } catch (e) { h e.message }] *)
Fixpoint try_catch {A} (p : Async A) (h : string → Async A) : Async A :=
  match p with
  | Return a => Return a
  | Throw m => h m
  | Call s k => Call s (try_catch k h)
  | Await r k => Await r (fun o => try_catch (k o) h)
  end.

(** [try { p } finally { q }]: [q] runs on both exits and the exit of [p]
    stands, unless [q] itself throws. *)
Fixpoint try_finally {A} (p : Async A) (q : Async unit) : Async A :=
  match p with
  | Return a => q ;; Return a
  | Throw m => q ;; Throw m
  | Call s k => Call s (try_finally k q)
  | Await r k => Await r (fun o => try_finally (k o) q)
  end.

Definition call (s : Setter) : Async unit := Call s (Return tt).

(** [await fetch(...)] *)
Definition fetch (r : Request) : Async Response :=
  Await r (fun o =>
    match o with
    | Fulfilled res => Return res
    | Rejected m => Throw m
    end).

(** [await promise] for a promise that is settled when it is awaited. *)
Definition await {A} (o : Settled A) : Async A :=
  match o with
  | Fulfilled v => Return v
  | Rejected m => Throw m
  end.

(** [if (b) p] *)
Definition when (b : bool) (p : Async unit) : Async unit :=
  if b then p else Return tt.

(** ** The handlers

    A handler is a closure of the render that created it: [c] holds the
    state cells as that render saw them, and the handler reads [form],
    [query] and [categoryFilter] from there however long it runs.
    [await fetchBooks()] starts the body of [fetchBooks] at once and goes on
    when that body is done, so the call is the body in place. *)

Definition fetchBooks (c : State) : Async unit :=
  try_finally
    (try_catch
       (call (setLoading true) ;;
        let params : URLSearchParams.t := [] in
        let params :=
          if JS.truthy (query c)
          then URLSearchParams.set params "q" (query c) else params in
        let params :=
          if JS.truthy (categoryFilter c)
          then URLSearchParams.set params "category" (categoryFilter c)
          else params in
        res ← fetch (GET_books params);
        when (negb (ok res)) (Throw "Failed to load books") ;;
        data ← await (json res);
        call (setBooks data))
       (fun message => call (setError message)))
    (call (setLoading false)).

Definition handleSubmit (c : State) : Async unit :=
  call (setError "") ;;
  call (setSubmitting true) ;;
  try_finally
    (try_catch
       (when (negb (JS.truthy (Form.title (form c)))
              || negb (JS.truthy (Form.author (form c)))
              || negb (JS.truthy (Form.category (form c))))
          (Throw "Please fill title, author and category") ;;
        res ← fetch (POST_books (form c));
        when (negb (ok res))
          (msg ← await (text res);
           Throw (JS.or msg "Failed to add book")) ;;
        call (setForm emptyForm) ;;
        fetchBooks c)
       (fun message => call (setError message)))
    (call (setSubmitting false)).

(** [confirmed] is what [confirm('Delete this book?')] returns. *)
Definition handleDelete (c : State) (id : BookId) (confirmed : bool) : Async unit :=
  if negb confirmed then Return tt else
  try_catch
    (fetch (DELETE_book id) ;;
     fetchBooks c)
    (fun _ => call (setError "Delete failed")).

(** ** The event loop *)

(** What a handler does to the outside: a setter call or a request sent. *)
Inductive Effect : Type :=
| Called (s : Setter)
| Sent (r : Request).

(** How a handler leaves the thread: done, dead from an error nobody caught,
    or waiting for a request with the rest of its body. *)
Inductive Outcome : Type :=
| Finished
| Uncaught (message : string)
| Suspended (r : Request) (k : Settled Response → Async unit).

(** Runs a handler on the state until it leaves the thread.  The setter calls
    of one run are batched by React into one render; all of them write plain
    values, so the state of that render is the calls applied in order. *)
Fixpoint exec (p : Async unit) (st : State) : State * list Effect * Outcome :=
  match p with
  | Return _ => (st, [], Finished)
  | Throw m => (st, [], Uncaught m)
  | Call s k =>
      let '(st', es, o) := exec k (update s st) in (st', Called s :: es, o)
  | Await r k => (st, [Sent r], Suspended r k)
  end.

(** Which of the three operations a suspended handler belongs to. *)
Inductive Operation : Type := ListSearch | Create | Delete.

Record Task : Type := mkTask {
  operation : Operation;
  request : Request;
  resume : Settled Response → Async unit;
}.

(** The world: the React state, one slot per handler that ever had to wait
    (emptied when the handler is done), and everything done so far, oldest
    first. *)
Record World : Type := mkWorld {
  ui : State;
  pending : list (option Task);
  trace : list Effect;
}.

Definition initialWorld : World :=
  {| ui := initialState; pending := []; trace := [] |}.

Definition slot (op : Operation) (o : Outcome) : option Task :=
  match o with
  | Suspended r k => Some (mkTask op r k)
  | Finished | Uncaught _ => None
  end.

(** An inline handler calls one setter. *)
Definition set_state (s : Setter) (w : World) : World :=
  {| ui := update s (ui w); pending := pending w; trace := trace w ++ [Called s] |}.

(** An asynchronous handler is invoked. *)
Definition invoke (op : Operation) (p : Async unit) (w : World) : World :=
  let '(st, es, o) := exec p (ui w) in
  {| ui := st;
     pending := pending w ++ match slot op o with Some t => [Some t] | None => [] end;
     trace := trace w ++ es |}.

(** The request of slot [n] settles and its handler goes on. *)
Definition settle (n : nat) (o : Settled Response) (w : World) : World :=
  match pending w !! n with
  | Some (Some t) =>
      let '(st, es, o') := exec (resume t o) (ui w) in
      {| ui := st;
         pending := <[n := slot (operation t) o']> (pending w);
         trace := trace w ++ es |}
  | _ => w
  end.

Inductive Event : Type :=
| Mount                                     (* [useEffect(..., [])] *)
| Input (fld : Form.field) (value : string) (* [onChange] of a form control *)
| Clear                                     (* the Clear button *)
| TypeQuery (value : string)                (* [onChange] of the search box *)
| SelectCategory (value : string)           (* [onChange] of the selector *)
| Search                                    (* the Search button, or Enter *)
| Submit                                    (* [onSubmit] of the form *)
| Toggle (id : BookId)                      (* the Read / Hide button *)
| ClickDelete (id : BookId) (confirmed : bool)
| Settle (n : nat) (o : Settled Response).

(** Every user event runs the handler the latest render attached to the
    control, so the closure is the state at the time of the event. *)
Definition step (w : World) (ev : Event) : World :=
  let c := ui w in
  match ev with
  | Mount => invoke ListSearch (fetchBooks c) w
  | Input fld value => set_state (setForm (Form.set fld value (form c))) w
  | Clear => set_state (setForm emptyForm) w
  | TypeQuery value => set_state (setQuery value) w
  | SelectCategory value => set_state (setCategoryFilter value) w
  | Search => invoke ListSearch (fetchBooks c) w
  | Submit => invoke Create (handleSubmit c) w
  | Toggle id =>
      set_state
        (setExpandedId
           (if bool_decide (expandedId c = Some id) then None else Some id)) w
  | ClickDelete id confirmed => invoke Delete (handleDelete c id confirmed) w
  | Settle n o => settle n o w
  end.

Definition run (evs : list Event) : World := foldl step initialWorld evs.

(** The requests among the effects, in order. *)
Definition requests (es : list Effect) : list Request :=
  omap (fun e => match e with Sent r => Some r | Called _ => None end) es.

(** ** Failures

    The description of the failure a settlement means to the handler that
    awaits it, if it means one: the message its [catch] block receives, or
    the fixed text the block of [handleDelete] uses. *)
Definition failure (r : Request) (o : Settled Response) : option string :=
  match r, o with
  | GET_books _, Rejected m => Some m
  | GET_books _, Fulfilled res =>
      if ok res
      then match json res with Rejected m => Some m | Fulfilled _ => None end
      else Some "Failed to load books"
  | POST_books _, Rejected m => Some m
  | POST_books _, Fulfilled res =>
      if ok res then None
      else match text res with
           | Rejected m => Some m
           | Fulfilled t => Some (JS.or t "Failed to add book")
           end
  | DELETE_book _, Rejected _ => Some "Delete failed"
  | DELETE_book _, Fulfilled _ => None
  end.


(** The query of a list request in the words of the specification: each of
    the two parameters is there when its text is not empty. *)
Definition listQuery (q cat : string) : URLSearchParams.t :=
  (if decide (q = "") then [] else [("q", q)])
  ++ (if decide (cat = "") then [] else [("category", cat)]).

(** The create form passes the local check: the three required fields hold
    some text. *)
Definition complete (f : Form.t) : Prop :=
  Form.title f ≠ "" ∧ Form.author f ≠ "" ∧ Form.category f ≠ "".

Global Instance complete_dec f : Decision (complete f).
Proof. unfold complete. apply _. Defined.

(** ** Handlers seen from outside

    What a handler does before it leaves the thread does not depend on the
    state it runs on: the effects and the outcome can be read off its body,
    and the state it leaves is the setter calls applied in order. *)
Fixpoint behaviour (p : Async unit) : list Effect * Outcome :=
  match p with
  | Return _ => ([], Finished)
  | Throw m => ([], Uncaught m)
  | Call s k => let '(es, o) := behaviour k in (Called s :: es, o)
  | Await r k => ([Sent r], Suspended r k)
  end.

Fixpoint commit (es : list Effect) (st : State) : State :=
  match es with
  | [] => st
  | Called s :: es' => commit es' (update s st)
  | Sent _ :: es' => commit es' st
  end.

(** [p] runs up to a request [r] and waits there with [k]. *)
Definition waits (p : Async unit) (r : Request)
    (k : Settled Response → Async unit) : Prop :=
  (behaviour p).2 = Suspended r k.

(** The suspended handlers a run can hold: one of the three asynchronous
    handlers at its first request, or [handleSubmit] or [handleDelete] at
    the list request that follows. *)
Inductive task_ok : Task → Prop :=
| ok_fetchBooks c r k :
    waits (fetchBooks c) r k → task_ok (mkTask ListSearch r k)
| ok_handleSubmit c r k :
    waits (handleSubmit c) r k → task_ok (mkTask Create r k)
| ok_handleSubmit_list c r k o r' k' :
    waits (handleSubmit c) r k → waits (k o) r' k' →
    task_ok (mkTask Create r' k')
| ok_handleDelete c id r k :
    waits (handleDelete c id true) r k → task_ok (mkTask Delete r k)
| ok_handleDelete_list c id r k o r' k' :
    waits (handleDelete c id true) r k → waits (k o) r' k' →
    task_ok (mkTask Delete r' k').

(** What the tail of [fetchBooks] does with the settlement of its request. *)
Definition listTail (o : Settled Response) : list Effect :=
  match o with
  | Rejected m => [Called (setError m)]
  | Fulfilled res =>
      if ok res
      then match json res with
           | Fulfilled data => [Called (setBooks data)]
           | Rejected m => [Called (setError m)]
           end
      else [Called (setError "Failed to load books")]
  end ++ [Called (setLoading false)].

(** What the operation still does once its list request is over. *)
Definition epilogue (op : Operation) : list Effect :=
  match op with
  | Create => [Called (setSubmitting false)]
  | ListSearch | Delete => []
  end.

(** The three shapes of a suspended handler, by the request it waits for. *)
Definition list_shape (t : Task) : Prop :=
  (∃ p, request t = GET_books p)
  ∧ ∀ o, behaviour (resume t o) = (listTail o ++ epilogue (operation t), Finished).

Definition create_shape (t : Task) : Prop :=
  operation t = Create
  ∧ (∃ body, complete body ∧ request t = POST_books body)
  ∧ ∀ o,
      match failure (request t) o with
      | Some m =>
          behaviour (resume t o) =
            ([Called (setError m); Called (setSubmitting false)], Finished)
      | None =>
          ∃ p k', behaviour (resume t o) =
                    ([Called (setForm emptyForm); Called (setLoading true);
                      Sent (GET_books p)], Suspended (GET_books p) k')
                  ∧ list_shape (mkTask Create (GET_books p) k')
      end.

Definition delete_shape (t : Task) : Prop :=
  operation t = Delete
  ∧ (∃ id, request t = DELETE_book id)
  ∧ ∀ o,
      match o with
      | Rejected _ =>
          behaviour (resume t o) = ([Called (setError "Delete failed")], Finished)
      | Fulfilled _ =>
          ∃ p k', behaviour (resume t o) =
                    ([Called (setLoading true); Sent (GET_books p)],
                     Suspended (GET_books p) k')
                  ∧ list_shape (mkTask Delete (GET_books p) k')
      end.

(** The invariant of the event loop: every waiting handler is one of those. *)
Definition tasks_ok (w : World) : Prop :=
  ∀ n t, pending w !! n = Some (Some t) → task_ok t.

(** The request slot [n] waits for, the operation it belongs to, and the
    slot of a handler that is done. *)
Definition awaited (w : World) (n : nat) : option Request :=
  match pending w !! n with
  | Some (Some t) => Some (request t)
  | _ => None
  end.

Definition owner (w : World) (n : nat) : option Operation :=
  match pending w !! n with
  | Some (Some t) => Some (operation t)
  | _ => None
  end.

Definition finished (w : World) (n : nat) : Prop := pending w !! n = Some None.

(** A book of the given category, and one with an id too. *)
Definition bookOf (category : string) : Book.t :=
  {| Book.id := IdNum 0; Book.title := ""; Book.author := "";
     Book.category := category; Book.description := "";
     Book.text_summary := ""; Book.cover_image_url := "";
     Book.audio_summary_url := "" |}.

Definition dune : Book.t :=
  {| Book.id := IdNum 1; Book.title := "Dune"; Book.author := "Herbert";
     Book.category := "Sci-Fi"; Book.description := "";
     Book.text_summary := ""; Book.cover_image_url := "";
     Book.audio_summary_url := "" |}.

(** A response of the given status whose body is the text, or the list. *)
Definition textResponse (status_ok : bool) (body : string) : Settled Response :=
  Fulfilled {| ok := status_ok; text := Fulfilled body;
               json := Rejected "Unexpected token" |}.

Definition jsonResponse (status_ok : bool) (data : list Book.t) : Settled Response :=
  Fulfilled {| ok := status_ok; text := Fulfilled "[...]"; json := Fulfilled data |}.

(** ** What the component renders

    The part of the JSX that depends on the state: the error banner, the
    controls of the form and of the search bar, and the list pane with one
    row per book. *)

(** [form[fld]], the value a form control shows. *)
Definition formField (fld : Form.field) (f : Form.t) : string :=
  match fld with
  | Form.Title => Form.title f
  | Form.Author => Form.author f
  | Form.Category => Form.category f
  | Form.CoverImageUrl => Form.cover_image_url f
  | Form.AudioSummaryUrl => Form.audio_summary_url f
  | Form.Description => Form.description f
  | Form.TextSummary => Form.text_summary f
  end.

(** [cond && element] with a string for [cond]: the element, or nothing. *)
Definition shown_if {A} (cond : string) (element : A) : option A :=
  if JS.truthy cond then Some element else None.

Inductive Cover : Type :=
| Img (src alt : string)
| NoImage.

Record Row : Type := mkRow {
  row_key : BookId;
  row_cover : Cover;
  row_title : string;
  row_author : string;
  row_category : string;
  row_toggle : string;
  row_description : option string;
  row_audio : option string;
  row_summary : option string;
}.

Inductive Pane : Type :=
| LoadingText
| EmptyText
| Rows (rows : list Row).

Record View : Type := mkView {
  banner : option string;
  submit_disabled : bool;
  submit_label : string;
  search_value : string;
  select_value : string;
  options : list (string * string);
  pane : Pane;
}.

Definition renderRow (st : State) (b : Book.t) : Row :=
  {| row_key := Book.id b;
     row_cover :=
       if JS.truthy (Book.cover_image_url b)
       then Img (Book.cover_image_url b) (Book.title b) else NoImage;
     row_title := Book.title b;
     row_author := Book.author b;
     row_category := Book.category b;
     row_toggle := if expanded st b then "Hide" else "Read";
     row_description := shown_if (Book.description b) (Book.description b);
     row_audio := shown_if (Book.audio_summary_url b) (Book.audio_summary_url b);
     row_summary :=
       if expanded st b
       then Some (JS.or (Book.text_summary b) "No text summary provided.")
       else None |}.

Definition render (st : State) : View :=
  {| banner := shown_if (error st) (error st);
     submit_disabled := submitting st;
     submit_label := if submitting st then "Saving..." else "Add Book";
     search_value := query st;
     select_value := categoryFilter st;
     options :=
       ("", "All categories") :: List.map (fun c => (c, c)) (categories (books st));
     pane :=
       if loading st then LoadingText
       else match books st with
            | [] => EmptyText
            | _ :: _ => Rows (List.map (renderRow st) (books st))
            end |}.

(** The successful settlement of a list request that carries [data]. *)
Definition listResponse (res : Response) (data : list Book.t) : Prop :=
  ok res = true ∧ json res = Fulfilled data.

(** The events whose handler is an inline setter call: typing and choosing
    in controls, the Clear button, the Read / Hide button. *)
Definition local_event (ev : Event) : bool :=
  match ev with
  | Input _ _ | Clear | TypeQuery _ | SelectCategory _ | Toggle _ => true
  | Mount | Search | Submit | ClickDelete _ _ | Settle _ _ => false
  end.

(** ** Basic facts *)

Lemma exec_behaviour p st :
  exec p st = (commit (behaviour p).1 st, (behaviour p).1, (behaviour p).2).
Proof.
  revert st. induction p as [a|m|s k IH|r k _]; intros st; simpl; try done.
  rewrite IH. by destruct (behaviour k).
Qed.

Lemma listQuery_set q cat :
  (let params : URLSearchParams.t := [] in
   let params :=
     if JS.truthy q then URLSearchParams.set params "q" q else params in
   let params :=
     if JS.truthy cat then URLSearchParams.set params "category" cat
     else params in
   params) = listQuery q cat.
Proof. unfold listQuery. destruct q, cat; reflexivity. Qed.

Lemma fetchBooks_waits c r k :
  waits (fetchBooks c) r k →
  r = GET_books (listQuery (query c) (categoryFilter c))
  ∧ ∀ o, behaviour (k o) = (listTail o, Finished).
Proof.
  unfold waits. simpl. intros [= <- <-]. split.
  - f_equal. apply listQuery_set.
  - intros [[[] tx [d|m]]|m]; reflexivity.
Qed.

Lemma handleSubmit_waits c r k :
  waits (handleSubmit c) r k →
  complete (form c) ∧ r = POST_books (form c) ∧
  ∀ o,
    match failure r o with
    | Some m =>
        behaviour (k o) =
          ([Called (setError m); Called (setSubmitting false)], Finished)
    | None =>
        let r' := GET_books (listQuery (query c) (categoryFilter c)) in
        ∃ k', behaviour (k o) =
                ([Called (setForm emptyForm); Called (setLoading true); Sent r'],
                 Suspended r' k')
              ∧ ∀ o', behaviour (k' o') =
                        (listTail o' ++ epilogue Create, Finished)
    end.
Proof.
  unfold waits, complete. destruct c as [[t a ct d ts cv au] ld sb er bk q cf ex].
  destruct t, a, ct; simpl; try discriminate. intros [= <- <-].
  split; [done|]. split; [done|].
  intros [[[] [tx|m'] js]|m]; simpl; try reflexivity.
  all: eexists; split;
    [ rewrite listQuery_set; reflexivity
    | intros [[[] tx' [d'|m'']]|m'']; reflexivity ].
Qed.

Lemma handleDelete_waits c id r k :
  waits (handleDelete c id true) r k →
  r = DELETE_book id ∧
  ∀ o,
    match o with
    | Rejected _ =>
        behaviour (k o) = ([Called (setError "Delete failed")], Finished)
    | Fulfilled _ =>
        let r' := GET_books (listQuery (query c) (categoryFilter c)) in
        ∃ k', behaviour (k o) =
                ([Called (setLoading true); Sent r'], Suspended r' k')
              ∧ ∀ o', behaviour (k' o') =
                        (listTail o' ++ epilogue Delete, Finished)
    end.
Proof.
  unfold waits. simpl. intros [= <- <-]. split; [done|].
  intros [res|m]; simpl; [|reflexivity].
  eexists; split;
    [ rewrite listQuery_set; reflexivity
    | intros [[[] tx' [d'|m'']]|m'']; reflexivity ].
Qed.

Lemma handleSubmit_list_shape c r k o r' k' :
  waits (handleSubmit c) r k → waits (k o) r' k' →
  list_shape (mkTask Create r' k').
Proof.
  intros H H'. apply handleSubmit_waits in H as (_ & -> & Hk).
  specialize (Hk o). unfold waits in H'. destruct (failure _ o).
  - rewrite Hk in H'. discriminate.
  - destruct Hk as (k'' & Hb & Hk'). rewrite Hb in H'. simpl in H'.
    injection H' as <- <-. split; simpl; eauto.
Qed.

Lemma handleDelete_list_shape c id r k o r' k' :
  waits (handleDelete c id true) r k → waits (k o) r' k' →
  list_shape (mkTask Delete r' k').
Proof.
  intros H H'. apply handleDelete_waits in H as (-> & Hk).
  specialize (Hk o). unfold waits in H'. destruct o.
  - destruct Hk as (k'' & Hb & Hk'). rewrite Hb in H'. simpl in H'.
    injection H' as <- <-. split; simpl; eauto.
  - rewrite Hk in H'. discriminate.
Qed.

Lemma task_ok_shape t :
  task_ok t → list_shape t ∨ create_shape t ∨ delete_shape t.
Proof.
  destruct 1 as [c r k H|c r k H|c r k o r' k' H H'|c id r k H|c id r k o r' k' H H'].
  - apply fetchBooks_waits in H as [-> Hk]. left. split; [eauto|].
    intros o. simpl. rewrite Hk. by rewrite app_nil_r.
  - apply handleSubmit_waits in H as (Hc & -> & Hk). right; left.
    split; [done|]. split; [eauto|]. intros o. specialize (Hk o).
    cbn [request resume operation].
    destruct (failure _ o); [done|]. destruct Hk as (k' & Hb & Hk').
    eexists _, k'. split; [exact Hb|]. split; simpl; eauto.
  - left. by eapply handleSubmit_list_shape.
  - apply handleDelete_waits in H as (-> & Hk). right; right.
    split; [done|]. split; [eauto|]. intros o. specialize (Hk o).
    cbn [request resume operation].
    destruct o; [|done]. destruct Hk as (k' & Hb & Hk').
    eexists _, k'. split; [exact Hb|]. split; simpl; eauto.
  - left. by eapply handleDelete_list_shape.
Qed.

(** ** The event loop, one step at a time *)

Lemma run_snoc evs ev : run (evs ++ [ev]) = step (run evs) ev.
Proof. unfold run. by rewrite foldl_app. Qed.

Lemma invoke_behaviour op p w :
  invoke op p w =
    {| ui := commit (behaviour p).1 (ui w);
       pending := pending w ++
         match slot op (behaviour p).2 with Some t => [Some t] | None => [] end;
       trace := trace w ++ (behaviour p).1 |}.
Proof. unfold invoke. by rewrite exec_behaviour. Qed.

Lemma settle_behaviour w n t o :
  pending w !! n = Some (Some t) →
  settle n o w =
    {| ui := commit (behaviour (resume t o)).1 (ui w);
       pending := <[n := slot (operation t) (behaviour (resume t o)).2]> (pending w);
       trace := trace w ++ (behaviour (resume t o)).1 |}.
Proof. intros H. unfold settle. by rewrite H, exec_behaviour. Qed.

Lemma settle_idle w n o :
  (∀ t, pending w !! n ≠ Some (Some t)) → settle n o w = w.
Proof.
  intros H. unfold settle. destruct (pending w !! n) as [[t|]|] eqn:E; try done.
  by destruct (H t).
Qed.

Lemma settle_idle_step w n o :
  (∀ t, pending w !! n ≠ Some (Some t)) → step w (Settle n o) = w.
Proof. apply settle_idle. Qed.

Lemma invoke_tasks_ok op p w :
  tasks_ok w →
  (∀ r k, waits p r k → task_ok (mkTask op r k)) →
  tasks_ok (invoke op p w).
Proof.
  intros Hw Hp n t. rewrite invoke_behaviour. simpl.
  destruct (behaviour p) as [es out] eqn:E. simpl.
  destruct out as [|m|r k]; simpl; rewrite ?app_nil_r; [apply Hw..|].
  intros H. apply lookup_app_Some in H as [H|[_ H]]; [by eapply Hw|].
  apply list_lookup_singleton_Some in H as [_ [= <-]].
  apply Hp. unfold waits. by rewrite E.
Qed.

Lemma settle_tasks_ok n o w : tasks_ok w → tasks_ok (settle n o w).
Proof.
  intros Hw. destruct (pending w !! n) as [[t|]|] eqn:E.
  2,3: rewrite settle_idle; [done|congruence].
  rewrite (settle_behaviour _ _ _ _ E). intros i u. simpl.
  destruct (decide (n = i)) as [<-|Hne].
  - rewrite list_lookup_insert_eq by (by eapply lookup_lt_Some).
    intros [= Hu]. pose proof (Hw _ _ E) as Ht.
    destruct (behaviour (resume t o)) as [es [|m|r' k']] eqn:Eb; try done.
    simpl in Hu. injection Hu as <-.
    destruct Ht as [c r k H|c r k H|c r k o0 r0 k0 H H'|c id r k H|c id r k o0 r0 k0 H H'];
      simpl in Eb.
    + apply fetchBooks_waits in H as [_ Hk]. rewrite Hk in Eb. discriminate.
    + eapply ok_handleSubmit_list; [exact H|]. unfold waits. by rewrite Eb.
    + destruct (handleSubmit_list_shape _ _ _ _ _ _ H H') as [_ Hs].
      simpl in Hs. rewrite Hs in Eb. discriminate.
    + eapply ok_handleDelete_list; [exact H|]. unfold waits. by rewrite Eb.
    + destruct (handleDelete_list_shape _ _ _ _ _ _ _ H H') as [_ Hs].
      simpl in Hs. rewrite Hs in Eb. discriminate.
  - rewrite list_lookup_insert_ne by done. apply Hw.
Qed.

Lemma step_tasks_ok w ev : tasks_ok w → tasks_ok (step w ev).
Proof.
  intros Hw. destruct ev as [|fld v| |v|v| | |id|id [|]|n o]; simpl;
    try exact Hw; try (by apply settle_tasks_ok).
  - apply invoke_tasks_ok; [done|]. intros r k. apply ok_fetchBooks.
  - apply invoke_tasks_ok; [done|]. intros r k. apply ok_fetchBooks.
  - apply invoke_tasks_ok; [done|]. intros r k. apply ok_handleSubmit.
  - apply invoke_tasks_ok; [done|]. intros r k. apply ok_handleDelete.
  - apply invoke_tasks_ok; [done|]. intros r k. unfold waits. discriminate.
Qed.

Lemma run_tasks_ok evs : tasks_ok (run evs).
Proof.
  induction evs as [|ev evs IH] using rev_ind.
  - intros n t. unfold run. simpl. by rewrite lookup_nil.
  - rewrite run_snoc. by apply step_tasks_ok.
Qed.

Lemma run_task_shape evs n t :
  pending (run evs) !! n = Some (Some t) →
  list_shape t ∨ create_shape t ∨ delete_shape t.
Proof. intros H. eapply task_ok_shape, run_tasks_ok, H. Qed.

(** A step leaves the slots of the other handlers alone. *)
Lemma step_keeps_slot w ev n s :
  pending w !! n = Some s →
  (∀ o, ev ≠ Settle n o) →
  pending (step w ev) !! n = Some s.
Proof.
  intros H Hev.
  assert (∀ op p, pending (invoke op p w) !! n = Some s) as Hinv.
  { intros op p. rewrite invoke_behaviour. simpl. by apply lookup_app_l_Some. }
  destruct ev as [|fld v| |v|v| | |id|id c|i o]; cbn [step];
    try apply Hinv; try done.
  unfold settle. destruct (pending w !! i) as [[t|]|] eqn:E; try done.
  destruct (exec (resume t o) (ui w)) as [[st es] out]. simpl.
  rewrite list_lookup_insert_ne; [done|]. intros ->. by destruct (Hev o).
Qed.

Lemma steps_keep_slot evs w n s :
  pending w !! n = Some s →
  Forall (λ ev, ∀ o, ev ≠ Settle n o) evs →
  pending (foldl step w evs) !! n = Some s.
Proof.
  revert w. induction evs as [|ev evs IH]; intros w H Hevs; [done|].
  inversion_clear Hevs. simpl. apply IH; [|done]. by apply step_keeps_slot.
Qed.

(** ** The order of [sort] and the elements of a [Set] *)

Lemma compare_as_OT x y : String.compare x y = String_as_OT.compare x y.
Proof. reflexivity. Qed.

Lemma lex_le_lt x y : lex_le x y ↔ x = y ∨ String_as_OT.lt x y.
Proof.
  unfold lex_le. rewrite compare_as_OT.
  destruct (String_as_OT.compare_spec x y) as [E|L|L].
  - split; [by left|done].
  - split; [by right|done].
  - split; [done|]. intros [->|L'].
    + by destruct (irreflexivity String_as_OT.lt y).
    + destruct (irreflexivity String_as_OT.lt x). by etrans.
Qed.

Global Instance lex_le_trans : Transitive lex_le.
Proof.
  intros x y z H1 H2.
  apply (proj1 (lex_le_lt _ _)) in H1 as [->|L1];
    apply (proj1 (lex_le_lt _ _)) in H2 as [->|L2];
    apply (proj2 (lex_le_lt _ _)); auto.
  right. by etrans.
Qed.

Global Instance lex_le_antisym : AntiSymm (=) lex_le.
Proof.
  intros x y H1 H2.
  apply (proj1 (lex_le_lt _ _)) in H1 as [->|L1]; [done|].
  apply (proj1 (lex_le_lt _ _)) in H2 as [->|L2]; [done|].
  destruct (irreflexivity String_as_OT.lt x). by etrans.
Qed.

Global Instance lex_le_total : Total lex_le.
Proof.
  intros x y. unfold lex_le. rewrite (String.compare_antisym y x).
  destruct (String.compare x y); simpl; auto.
Qed.

Lemma before_lex_le x y : JS.before x y = true ↔ lex_le x y.
Proof. unfold JS.before, lex_le. by destruct (String.compare x y). Qed.

Lemma sort_insert_perm x l : JS.sort_insert x l ≡ₚ x :: l.
Proof.
  induction l as [|y l IH]; simpl; [done|].
  destruct (JS.before x y); [done|]. rewrite IH. apply Permutation_swap.
Qed.

Lemma sort_perm l : JS.sort l ≡ₚ l.
Proof.
  induction l as [|x l IH]; simpl; [done|].
  change (foldr JS.sort_insert [] l) with (JS.sort l).
  by rewrite sort_insert_perm, IH.
Qed.

Lemma sort_insert_sorted x l :
  StronglySorted lex_le l → StronglySorted lex_le (JS.sort_insert x l).
Proof.
  induction 1 as [|y l Hl IH Hy]; simpl; [by repeat constructor|].
  destruct (JS.before x y) eqn:E.
  - apply before_lex_le in E. constructor; [by constructor|].
    constructor; [done|]. eapply Forall_impl; [exact Hy|].
    intros z Hz. by etrans.
  - assert (lex_le y x) as Hyx.
    { destruct (total lex_le x y) as [Hxy|]; [|done].
      apply before_lex_le in Hxy. congruence. }
    constructor; [done|]. rewrite sort_insert_perm. by constructor.
Qed.

Lemma sort_sorted l : StronglySorted lex_le (JS.sort l).
Proof.
  induction l as [|x l IH]; simpl; [constructor|].
  by apply sort_insert_sorted.
Qed.

Lemma Set_has_elem s x : JS.Set_has s x = true ↔ x ∈ s.
Proof.
  unfold JS.Set_has. rewrite existsb_exists. split.
  - intros (y & Hy & E). apply String.eqb_eq in E as ->.
    by apply list_elem_of_In.
  - intros H. exists x. split; [by apply list_elem_of_In|apply String.eqb_refl].
Qed.

Lemma Set_add_spec s x :
  NoDup s → NoDup (JS.Set_add s x) ∧ ∀ y, y ∈ JS.Set_add s x ↔ y ∈ s ∨ y = x.
Proof.
  intros Hs. unfold JS.Set_add. destruct (JS.Set_has s x) eqn:E.
  - apply Set_has_elem in E. split; [done|].
    intros y. split; [by left|]. by intros [?| ->].
  - assert (x ∉ s) as Hx by (rewrite <- Set_has_elem; congruence).
    split.
    + apply NoDup_app. split; [done|]. split; [|apply NoDup_singleton].
      intros y Hy ->%list_elem_of_singleton. done.
    + intros y. rewrite elem_of_app, list_elem_of_singleton. done.
Qed.

Lemma foldl_Set_add_spec xs s :
  NoDup s →
  NoDup (foldl JS.Set_add s xs)
  ∧ ∀ y, y ∈ foldl JS.Set_add s xs ↔ y ∈ s ∨ y ∈ xs.
Proof.
  revert s. induction xs as [|x xs IH]; intros s Hs; simpl.
  - split; [done|]. intros y. rewrite elem_of_nil. tauto.
  - destruct (Set_add_spec s x Hs) as [Hn He].
    destruct (IH _ Hn) as [Hn' He']. split; [done|].
    intros y. rewrite He', He, elem_of_cons. tauto.
Qed.

Lemma Set_of_NoDup xs : NoDup (JS.Set_of xs).
Proof. apply foldl_Set_add_spec. constructor. Qed.

Lemma Set_of_elem xs y : y ∈ JS.Set_of xs ↔ y ∈ xs.
Proof.
  unfold JS.Set_of.
  destruct (foldl_Set_add_spec xs [] (NoDup_nil_2)) as [_ ->].
  rewrite elem_of_nil. tauto.
Qed.

Lemma or_empty s : JS.or s "" = s.
Proof. by destruct s. Qed.

(** The two pipelines feed the same texts to the set. *)
Lemma trimmed_texts books :
  List.filter JS.truthy
    (List.map (fun b => JS.trim (JS.or (Book.category b) "")) books)
  = filter (λ c, c ≠ "") ((λ b, JS.trim (Book.category b)) <$> books).
Proof.
  induction books as [|b books IH]; [done|].
  cbn [List.map List.filter fmap list_fmap]. rewrite or_empty, IH.
  rewrite filter_cons.
  destruct (JS.trim (Book.category b)); cbn [JS.truthy]; case_decide; done.
Qed.

(** The options are in strictly ascending order: sorted, and no text
    twice. *)
Lemma categories_sorted books : StronglySorted lex_le (categories books).
Proof. apply sort_sorted. Qed.

Lemma categories_NoDup books : NoDup (categories books).
Proof. unfold categories. rewrite sort_perm. apply Set_of_NoDup. Qed.

Lemma categories_elem books c :
  c ∈ categories books ↔
  c ≠ "" ∧ ∃ b, b ∈ books ∧ c = JS.trim (Book.category b).
Proof.
  unfold categories. rewrite sort_perm, Set_of_elem, trimmed_texts.
  rewrite list_elem_of_filter, list_elem_of_fmap.
  split; intros (? & b & ? & ?); eauto.
Qed.


(** ** Derived category options (C2) *)

(** C2.  For every book list the category options are
    [sort(dedupe(trim(b.category) for b in bookList if trim(b.category) != ""))]:
    trimmed, empties removed, deduplicated, sorted lexicographically without
    lowercasing.  The categories "Self-help", "self-help " (trailing space),
    the empty text and "Fiction" give "Fiction", "Self-help", "self-help". *)
Theorem categories_refine :
  (∀ books, categories books = spec_categories books)
  ∧ categories (bookOf <$> ["Self-help"; "self-help "; ""; "Fiction"])
    = ["Fiction"; "Self-help"; "self-help"].
Proof.
  split; [|reflexivity]. intros books.
  apply (StronglySorted_unique lex_le).
  - apply categories_sorted.
  - apply StronglySorted_merge_sort; apply _.
  - unfold spec_categories. rewrite merge_sort_Permutation.
    apply NoDup_Permutation.
    + apply categories_NoDup.
    + apply NoDup_remove_dups.
    + intros c. unfold categories.
      by rewrite sort_perm, Set_of_elem, trimmed_texts, elem_of_remove_dups.
Qed.

(** ** Local validation of the create form (C1) *)

Lemma incomplete_cases f :
  ¬ complete f ↔ Form.title f = "" ∨ Form.author f = "" ∨ Form.category f = "".
Proof.
  unfold complete.
  destruct (decide (Form.title f = "")), (decide (Form.author f = "")),
    (decide (Form.category f = "")); tauto.
Qed.

Lemma handleSubmit_incomplete c :
  ¬ complete (form c) →
  behaviour (handleSubmit c) =
    ([Called (setError ""); Called (setSubmitting true);
      Called (setError "Please fill title, author and category");
      Called (setSubmitting false)], Finished).
Proof.
  intros H%incomplete_cases. destruct c as [[t a ct d ts cv au] ld sb er bk q cf ex].
  simpl in H. destruct H as [->|[->| ->]]; [|destruct t|destruct t, a]; reflexivity.
Qed.

Lemma handleSubmit_complete c :
  complete (form c) →
  ∃ k, behaviour (handleSubmit c) =
         ([Called (setError ""); Called (setSubmitting true);
           Sent (POST_books (form c))], Suspended (POST_books (form c)) k).
Proof.
  destruct c as [[t a ct d ts cv au] ld sb er bk q cf ex].
  intros (Ht & Ha & Hc). simpl in *.
  destruct t, a, ct; try done. eexists. reflexivity.
Qed.

Lemma requests_app es es' : requests (es ++ es') = requests es ++ requests es'.
Proof. apply omap_app. Qed.

(** C1.  When title, author or category of the form is empty, submitting
    sends no request, leaves no handler waiting, and sets the error message
    to 'Please fill title, author and category'. *)
Theorem submit_incomplete_form (w : World) :
  Form.title (form (ui w)) = "" ∨ Form.author (form (ui w)) = ""
    ∨ Form.category (form (ui w)) = "" →
  let w' := step w Submit in
  requests (trace w') = requests (trace w)
  ∧ pending w' = pending w
  ∧ error (ui w') = "Please fill title, author and category"
  ∧ trace w' = trace w ++
      [Called (setError ""); Called (setSubmitting true);
       Called (setError "Please fill title, author and category");
       Called (setSubmitting false)].
Proof.
  intros H%incomplete_cases. cbn [step].
  rewrite invoke_behaviour, (handleSubmit_incomplete _ H). cbn.
  rewrite requests_app, !app_nil_r. done.
Qed.

Lemma submit_incomplete_form_witness :
  Form.title (form (ui initialWorld)) = ""
  ∧ error (ui (step initialWorld Submit))
    = "Please fill title, author and category"
  ∧ requests (trace (step initialWorld Submit)) = [].
Proof.
  split; [reflexivity|].
  pose proof (submit_incomplete_form initialWorld (or_introl eq_refl))
    as (Hr & _ & He & _).
  split; [exact He|exact Hr].
Defined.

(** ** Declining the delete (C9) *)

(** C9.  Clicking Delete on any book and declining the confirmation changes
    nothing: no request is sent, and the book list and every other part of
    the session state, the waiting handlers included, are as before. *)
Theorem declined_delete (w : World) (id : BookId) :
  step w (ClickDelete id false) = w.
Proof.
  destruct w as [st ps tr]. cbn. by rewrite !app_nil_r.
Qed.

(** ** Settlements, seen through the slots *)

Lemma awaited_task w n r :
  awaited w n = Some r → ∃ t, pending w !! n = Some (Some t) ∧ request t = r.
Proof.
  unfold awaited. destruct (pending w !! n) as [[t|]|]; try done.
  intros [= <-]. eauto.
Qed.

Lemma owner_task w n op :
  owner w n = Some op → ∃ t, pending w !! n = Some (Some t) ∧ operation t = op.
Proof.
  unfold owner. destruct (pending w !! n) as [[t|]|]; try done.
  intros [= <-]. eauto.
Qed.

(** The step of a settlement, when the handler of the slot then ends. *)
Lemma settle_ends w n t o es :
  pending w !! n = Some (Some t) →
  behaviour (resume t o) = (es, Finished) →
  ui (step w (Settle n o)) = commit es (ui w)
  ∧ trace (step w (Settle n o)) = trace w ++ es
  ∧ finished (step w (Settle n o)) n.
Proof.
  intros H Hb. cbn [step]. rewrite (settle_behaviour _ _ _ _ H), Hb.
  unfold finished. cbn. rewrite list_lookup_insert_eq; [done|].
  by eapply lookup_lt_Some.
Qed.

(** And when it goes on to a further request. *)
Lemma settle_goes_on w n t o es r k :
  pending w !! n = Some (Some t) →
  behaviour (resume t o) = (es, Suspended r k) →
  ui (step w (Settle n o)) = commit es (ui w)
  ∧ trace (step w (Settle n o)) = trace w ++ es
  ∧ pending (step w (Settle n o)) !! n = Some (Some (mkTask (operation t) r k)).
Proof.
  intros H Hb. cbn [step]. rewrite (settle_behaviour _ _ _ _ H), Hb.
  cbn. rewrite list_lookup_insert_eq; [done|].
  by eapply lookup_lt_Some.
Qed.

Lemma listTail_cases p o :
  match failure (GET_books p) o with
  | Some m => listTail o = [Called (setError m); Called (setLoading false)]
  | None => ∃ data, listTail o = [Called (setBooks data); Called (setLoading false)]
  end.
Proof. destruct o as [[[] tx [d|m]]|m]; cbn; eauto. Qed.

(** ** Failing list fetch (C4) *)

(** C4.  When a list request fails (the request is rejected, the response
    has a non-success status, or its body cannot be read), the error message
    becomes the description of the failure, the book list stays as it was,
    the loading flag is false, and the operation is over. *)
Theorem failed_list_fetch (evs : list Event) (n : nat)
    (p : URLSearchParams.t) (o : Settled Response) (m : string) :
  awaited (run evs) n = Some (GET_books p) →
  failure (GET_books p) o = Some m →
  let w := run evs in
  let w' := step w (Settle n o) in
  error (ui w') = m
  ∧ books (ui w') = books (ui w)
  ∧ loading (ui w') = false
  ∧ finished w' n.
Proof.
  intros (t & Ht & Hr)%awaited_task Hf w w'.
  destruct (run_task_shape _ _ _ Ht) as [[_ Hs]|[(_ & (b & _ & Hb) & _)|(_ & (i & Hi) & _)]];
    [|congruence..].
  pose proof (listTail_cases p o) as Hl. rewrite Hf in Hl.
  specialize (Hs o). rewrite Hl in Hs.
  destruct (settle_ends _ _ _ _ _ Ht Hs) as (Hu & _ & Hfin).
  subst w w'. rewrite Hu. by destruct (operation t).
Qed.

Lemma failed_list_fetch_witness :
  awaited (run [Mount]) 0 = Some (GET_books [])
  ∧ failure (GET_books []) (Rejected "Failed to fetch") = Some "Failed to fetch"
  ∧ error (ui (run [Mount; Settle 0 (Rejected "Failed to fetch")]))
    = "Failed to fetch".
Proof.
  split; [reflexivity|]. split; [reflexivity|].
  exact (proj1 (failed_list_fetch [Mount] 0 [] (Rejected "Failed to fetch")
                  "Failed to fetch" eq_refl eq_refl)).
Defined.

(** ** Create request refused by the backend (C5) *)

(** C5.  When the create request is answered with a non-success status, the
    error message is exactly the body text if that text is not empty and
    'Failed to add book' if it is, and the form is as it was. *)
Theorem refused_create (evs : list Event) (n : nat) (body : Form.t)
    (res : Response) (msg : string) :
  awaited (run evs) n = Some (POST_books body) →
  ok res = false →
  text res = Fulfilled msg →
  let w := run evs in
  let w' := step w (Settle n (Fulfilled res)) in
  (msg ≠ "" → error (ui w') = msg)
  ∧ (msg = "" → error (ui w') = "Failed to add book")
  ∧ form (ui w') = form (ui w).
Proof.
  intros (t & Ht & Hr)%awaited_task Hok Htx w w'.
  destruct (run_task_shape _ _ _ Ht) as [[[q Hq] _]|[(_ & _ & Hs)|(_ & (i & Hi) & _)]];
    [congruence| |congruence].
  specialize (Hs (Fulfilled res)). rewrite Hr in Hs. cbn in Hs.
  rewrite Hok, Htx in Hs.
  destruct (settle_ends _ _ _ _ _ Ht Hs) as (Hu & _ & _).
  subst w w'. rewrite Hu. cbn. split; [|split; [|done]].
  - by destruct msg.
  - by intros ->.
Qed.

Lemma refused_create_witness :
  let evs := [Input Form.Title "Dune"; Input Form.Author "Herbert";
              Input Form.Category "Sci-Fi"; Submit] in
  let res := mkResponse false (Fulfilled "title required") (Rejected "") in
  (∃ body, awaited (run evs) 0 = Some (POST_books body))
  ∧ error (ui (step (run evs) (Settle 0 (Fulfilled res)))) = "title required"
  ∧ form (ui (step (run evs) (Settle 0 (Fulfilled res)))) = form (ui (run evs)).
Proof.
  intros evs res. split; [eexists; reflexivity|].
  destruct (refused_create evs 0 _ res "title required" eq_refl eq_refl eq_refl)
    as (He & _ & Hf).
  split; [apply He; discriminate|exact Hf].
Defined.

(** ** Outcomes of a confirmed delete (C6) *)

(** C6, as the code has it.  When the delete request of a confirmed Delete
    is rejected (no response arrives), the error message becomes 'Delete
    failed', nothing more is sent and the operation is over.  When the
    request is answered, whatever the status, the list request is sent next
    and the operation waits for it. *)
Theorem delete_outcomes (evs : list Event) (n : nat) (id : BookId)
    (o : Settled Response) :
  awaited (run evs) n = Some (DELETE_book id) →
  let w := run evs in
  let w' := step w (Settle n o) in
  match o with
  | Rejected _ =>
      error (ui w') = "Delete failed"
      ∧ requests (trace w') = requests (trace w)
      ∧ finished w' n
  | Fulfilled _ =>
      ∃ p, requests (trace w') = requests (trace w) ++ [GET_books p]
           ∧ awaited w' n = Some (GET_books p)
  end.
Proof.
  intros (t & Ht & Hr)%awaited_task w w'.
  destruct (run_task_shape _ _ _ Ht) as [[[q Hq] _]|[(_ & (b & _ & Hb) & _)|(_ & _ & Hs)]];
    [congruence..|].
  specialize (Hs o). subst w w'. destruct o as [res|m].
  - destruct Hs as (p & k' & Hs & _). exists p.
    destruct (settle_goes_on _ _ _ _ _ _ _ Ht Hs) as (_ & Htr & Hp).
    unfold awaited. rewrite Htr, Hp, requests_app. done.
  - destruct (settle_ends _ _ _ _ _ Ht Hs) as (Hu & Htr & Hfin).
    rewrite Hu, Htr, requests_app. cbn. by rewrite app_nil_r.
Qed.

Lemma delete_outcomes_witness :
  let evs := [Mount; Settle 0 (jsonResponse true [dune]);
              ClickDelete (IdNum 1) true] in
  awaited (run evs) 1 = Some (DELETE_book (IdNum 1))
  ∧ error (ui (step (run evs) (Settle 1 (Rejected "Failed to fetch"))))
    = "Delete failed".
Proof.
  intros evs. split; [reflexivity|].
  exact (proj1 (delete_outcomes evs 1 (IdNum 1) (Rejected "Failed to fetch")
                  eq_refl)).
Defined.

(** C6 as stated fails twice.  A delete answered with a non-success status
    sets no error message: the message stays empty.  A delete whose request
    is rejected is not followed by a list request: the requests of the
    session end with the delete. *)
Lemma delete_failure_counterexample :
  let evs := [Mount; Settle 0 (jsonResponse true [dune]);
              ClickDelete (IdNum 1) true] in
  let refused := step (run evs) (Settle 1 (textResponse false "Not Found")) in
  let rejected := step (run evs) (Settle 1 (Rejected "Failed to fetch")) in
  error (ui refused) = ""
  ∧ error (ui refused) ≠ "Delete failed"
  ∧ requests (trace rejected) = [GET_books []; DELETE_book (IdNum 1)].
Proof. split; [reflexivity|]. split; [discriminate|reflexivity]. Qed.

(** ** Lifetime of the error message (C7) *)

(** A settlement that is no failure leaves the error message alone; one
    that is a failure writes its description. *)
Lemma settle_error evs n r o :
  awaited (run evs) n = Some r →
  error (ui (step (run evs) (Settle n o)))
  = match failure r o with Some m => m | None => error (ui (run evs)) end.
Proof.
  intros (t & Ht & Hr)%awaited_task.
  destruct (run_task_shape _ _ _ Ht) as [[[p Hp] Hs]|[(_ & _ & Hs)|(_ & (i & Hi) & Hs)]];
    specialize (Hs o).
  - assert (r = GET_books p) as -> by congruence.
    pose proof (listTail_cases p o) as Hl.
    destruct (failure (GET_books p) o) as [m|].
    + rewrite Hl in Hs. destruct (settle_ends _ _ _ _ _ Ht Hs) as (-> & _).
      by destruct (operation t).
    + destruct Hl as [d Hl]. rewrite Hl in Hs.
      destruct (settle_ends _ _ _ _ _ Ht Hs) as (-> & _).
      by destruct (operation t).
  - rewrite Hr in Hs. destruct (failure r o) as [m|].
    + by destruct (settle_ends _ _ _ _ _ Ht Hs) as (-> & _).
    + destruct Hs as (p & k' & Hs & _).
      by destruct (settle_goes_on _ _ _ _ _ _ _ Ht Hs) as (-> & _).
  - assert (r = DELETE_book i) as -> by congruence.
    destruct o as [res|m]; cbn [failure].
    + destruct Hs as (p & k' & Hs & _).
      by destruct (settle_goes_on _ _ _ _ _ _ _ Ht Hs) as (-> & _).
    + by destruct (settle_ends _ _ _ _ _ Ht Hs) as (-> & _).
Qed.

(** C7.  A successful list fetch leaves the error message as it is, so a
    message that was set is still set afterwards.  A step changes the error
    message only when it is a submission of the form, which first clears it,
    or a settlement that is a failure for the handler awaiting it, which
    writes the description of that failure. *)
Theorem error_message_lifetime (evs : list Event) (ev : Event) :
  let w := run evs in
  let w' := step w ev in
  (∀ n p o, ev = Settle n o → awaited w n = Some (GET_books p) →
     failure (GET_books p) o = None → error (ui w') = error (ui w))
  ∧ (error (ui w') ≠ error (ui w) →
       ev = Submit
       ∨ ∃ n r o m, ev = Settle n o ∧ awaited w n = Some r
                    ∧ failure r o = Some m ∧ error (ui w') = m)
  ∧ (ev = Submit → ∃ rest, trace w' = trace w ++ Called (setError "") :: rest).
Proof.
  intros w w'. subst w w'. split; [|split].
  - intros n p o -> Ha Hf. by rewrite (settle_error _ _ _ _ Ha), Hf.
  - intros Hne.
    destruct ev as [|fld v| |v|v| | |id|id c|n o]; cbn [step] in Hne;
      [by destruct Hne..|by left|by destruct Hne| |].
    + destruct c; by destruct Hne.
    + right. destruct (awaited (run evs) n) as [r|] eqn:Ha.
      * pose proof (settle_error _ _ _ o Ha) as He.
        destruct (failure r o) as [m|] eqn:Hf; [|by destruct Hne].
        by exists n, r, o, m.
      * rewrite settle_idle in Hne; [by destruct Hne|].
        intros t Ht. unfold awaited in Ha. by rewrite Ht in Ha.
  - intros ->. cbn [step]. rewrite invoke_behaviour.
    destruct (decide (complete (form (ui (run evs))))) as [Hc|Hc].
    + destruct (handleSubmit_complete _ Hc) as [k ->]. by eexists.
    + rewrite (handleSubmit_incomplete _ Hc). by eexists.
Qed.

Lemma error_message_lifetime_witness :
  let evs := [Submit; Search] in
  error (ui (run evs)) = "Please fill title, author and category"
  ∧ awaited (run evs) 0 = Some (GET_books [])
  ∧ error (ui (step (run evs) (Settle 0 (jsonResponse true [dune]))))
    = "Please fill title, author and category".
Proof.
  intros evs. split; [reflexivity|]. split; [reflexivity|].
  exact (proj1 (error_message_lifetime evs (Settle 0 (jsonResponse true [dune])))
           0 [] _ eq_refl eq_refl eq_refl).
Defined.

(** ** One expanded book (C8) *)

Lemma expanded_id st b :
  expanded st b = true ↔ expandedId st = Some (Book.id b).
Proof. unfold expanded. by rewrite bool_decide_eq_true. Qed.

Lemma none_expanded st i (l : list Book.t) :
  expandedId st = Some i → i ∉ Book.id <$> l →
  filter (λ b, expanded st b = true) l = [].
Proof.
  intros Hi. induction l as [|b l IH]; [done|].
  rewrite fmap_cons, not_elem_of_cons. intros [Hb Hl].
  rewrite filter_cons, decide_False; [by apply IH|].
  rewrite expanded_id, Hi. congruence.
Qed.

Lemma expanded_count st (l : list Book.t) :
  NoDup (Book.id <$> l) →
  (List.length (filter (λ b, expanded st b = true) l) ≤ 1)%nat.
Proof.
  induction l as [|b l IH]; [simpl; lia|].
  rewrite fmap_cons, NoDup_cons. intros [Hb Hl]. rewrite filter_cons.
  case_decide as Hx; [|by apply IH].
  apply expanded_id in Hx. by rewrite (none_expanded _ _ _ Hx Hb).
Qed.

(** C8.  In every state a session reaches at most one book is expanded: two
    expanded books have the same id, and a list of books with distinct ids
    shows at most one expanded.  Expanding book B while book A is expanded
    collapses A, and toggling the expanded book leaves no book expanded. *)
Theorem single_expanded (evs : list Event) :
  let w := run evs in
  (∀ b1 b2, expanded (ui w) b1 = true → expanded (ui w) b2 = true →
     Book.id b1 = Book.id b2)
  ∧ (NoDup (Book.id <$> books (ui w)) →
       (List.length (filter (λ b, expanded (ui w) b = true) (books (ui w))) ≤ 1)%nat)
  ∧ (∀ a b, expanded (ui w) a = true → Book.id b ≠ Book.id a →
       let w' := step w (Toggle (Book.id b)) in
       expanded (ui w') b = true ∧ expanded (ui w') a = false)
  ∧ (∀ a b, expanded (ui w) a = true →
       expanded (ui (step w (Toggle (Book.id a)))) b = false).
Proof.
  intros w. split; [|split; [|split]].
  - intros b1 b2 H1%expanded_id H2%expanded_id. congruence.
  - apply expanded_count.
  - intros a b H%expanded_id Hne w'. subst w'. split.
    + apply expanded_id. cbn.
      rewrite bool_decide_eq_false_2; [done|]. rewrite H. congruence.
    + apply not_true_is_false. rewrite expanded_id. cbn.
      rewrite bool_decide_eq_false_2; [congruence|]. rewrite H. congruence.
  - intros a b H%expanded_id. apply not_true_is_false. rewrite expanded_id. cbn.
    by rewrite bool_decide_eq_true_2.
Qed.

Lemma single_expanded_witness :
  let evs := [Mount; Settle 0 (jsonResponse true [dune; bookOf "Fiction"]);
              Toggle (IdNum 1)] in
  expanded (ui (run evs)) dune = true
  ∧ expanded (ui (step (run evs) (Toggle (IdNum 0)))) (bookOf "Fiction") = true
  ∧ expanded (ui (step (run evs) (Toggle (IdNum 0)))) dune = false
  ∧ expanded (ui (step (run evs) (Toggle (IdNum 1)))) dune = false.
Proof.
  intros evs. split; [reflexivity|].
  destruct (single_expanded evs) as (_ & _ & Hswitch & Hhide).
  destruct (Hswitch dune (bookOf "Fiction") eq_refl) as [Hb Ha]; [discriminate|].
  split; [exact Hb|]. split; [exact Ha|].
  exact (Hhide dune dune eq_refl).
Defined.

(** ** Successful create (C3) *)

Lemma submit_waits w :
  complete (form (ui w)) →
  ∃ k, waits (handleSubmit (ui w)) (POST_books (form (ui w))) k
       ∧ pending (step w Submit) !! List.length (pending w)
         = Some (Some (mkTask Create (POST_books (form (ui w))) k))
       ∧ ui (step w Submit)
         = update (setSubmitting true) (update (setError "") (ui w))
       ∧ trace (step w Submit)
         = trace w ++ [Called (setError ""); Called (setSubmitting true);
                       Sent (POST_books (form (ui w)))].
Proof.
  intros Hc. destruct (handleSubmit_complete _ Hc) as [k Hk]. exists k.
  split; [unfold waits; by rewrite Hk|].
  cbn [step]. rewrite invoke_behaviour, Hk. cbn.
  split; [|done]. by rewrite list_lookup_middle.
Qed.

(** C3, as the code has it.  With title, author and category filled in, the
    form is submitted and, whatever happens meanwhile to other parts of the
    session, the create request succeeds: the form is reset to all-empty and
    the list request goes out with the query and the category filter the
    session had when the form was submitted. *)
Theorem create_success_refetches (w : World) (evs : list Event)
    (res : Response) :
  complete (form (ui w)) →
  Forall (λ ev, ∀ o, ev ≠ Settle (List.length (pending w)) o) evs →
  ok res = true →
  let n := List.length (pending w) in
  let w1 := foldl step (step w Submit) evs in
  let w2 := step w1 (Settle n (Fulfilled res)) in
  form (ui w2) = emptyForm
  ∧ trace w2 = trace w1 ++
      [Called (setForm emptyForm); Called (setLoading true);
       Sent (GET_books (listQuery (query (ui w)) (categoryFilter (ui w))))].
Proof.
  intros Hc Hevs Hok n w1 w2.
  destruct (submit_waits w Hc) as (k & Hw & Hn & _).
  pose proof (steps_keep_slot evs _ _ _ Hn Hevs) as Hn1. fold n w1 in Hn1.
  apply handleSubmit_waits in Hw as (_ & _ & Hk).
  specialize (Hk (Fulfilled res)). cbn in Hk. rewrite Hok in Hk.
  destruct Hk as (k' & Hb & _).
  destruct (settle_goes_on _ _ _ (Fulfilled res) _ _ _ Hn1 Hb) as (Hu & Ht & _).
  subst w2. by rewrite Hu, Ht.
Qed.

Lemma create_success_refetches_witness :
  let w := run [Input Form.Title "Dune"; Input Form.Author "Herbert";
                Input Form.Category "Sci-Fi"] in
  let evs := [TypeQuery "d"; Input Form.Title "Dune 2"] in
  let w2 := step (foldl step (step w Submit) evs) (Settle 0 (jsonResponse true [])) in
  complete (form (ui w))
  ∧ form (ui w2) = emptyForm
  ∧ requests (trace w2)
    = [POST_books (form (ui w)); GET_books []].
Proof.
  intros w evs w2.
  assert (complete (form (ui w))) as Hc by (repeat split; discriminate).
  split; [exact Hc|].
  assert (Forall (λ ev, ∀ o, ev ≠ Settle (List.length (pending w)) o) evs) as Hevs
    by (repeat constructor; discriminate).
  destruct (create_success_refetches w evs
              (mkResponse true (Fulfilled "[...]") (Fulfilled [])) Hc Hevs eq_refl)
    as [Hf Ht].
  split; [exact Hf|]. exact (f_equal requests Ht).
Defined.

(** C3 as stated fails where the filters change while the create request is
    in flight.  The form is submitted with an empty query, the user types
    "dune" in the search box, and the create request succeeds: the list
    request that follows carries no [q], not the query of that moment. *)
Lemma create_refetch_counterexample :
  let w := run [Mount; Settle 0 (jsonResponse true []);
                Input Form.Title "Dune"; Input Form.Author "Herbert";
                Input Form.Category "Sci-Fi"; Submit; TypeQuery "dune"] in
  let w' := step w (Settle 1 (jsonResponse true [dune])) in
  query (ui w) = "dune" ∧ query (ui w') = "dune"
  ∧ categoryFilter (ui w') = ""
  ∧ form (ui w') = emptyForm
  ∧ requests (trace w') =
      requests (trace w) ++ [GET_books []]
  ∧ GET_books [] ≠ GET_books (listQuery (query (ui w')) (categoryFilter (ui w'))).
Proof. repeat split; try reflexivity. discriminate. Qed.

(** ** The submitting flag (C10) *)

Lemma commit_app es es' st : commit (es ++ es') st = commit es' (commit es st).
Proof.
  revert st. induction es as [|[s|r] es IH]; intros st; simpl; by rewrite ?IH.
Qed.

(** The end of a create operation, at either of its requests. *)
Lemma create_end evs n o :
  owner (run evs) n = Some Create →
  finished (step (run evs) (Settle n o)) n →
  submitting (ui (step (run evs) (Settle n o))) = false.
Proof.
  intros (t & Ht & Hop)%owner_task Hfin.
  destruct (run_task_shape _ _ _ Ht) as [[_ Hs]|[(_ & _ & Hs)|(Hd & _)]];
    [| |congruence]; specialize (Hs o).
  - rewrite Hop in Hs. destruct (settle_ends _ _ _ _ _ Ht Hs) as (-> & _).
    by rewrite commit_app.
  - destruct (failure (request t) o) as [m|].
    + by destruct (settle_ends _ _ _ _ _ Ht Hs) as (-> & _).
    + destruct Hs as (p & k' & Hs & _).
      destruct (settle_goes_on _ _ _ _ _ _ _ Ht Hs) as (_ & _ & Hp).
      unfold finished in Hfin. congruence.
Qed.

(** A create operation is over after its create request fails, or else
    after the list request that follows, and the flag is false then. *)
Lemma create_direct evs n body o1 o2 :
  awaited (run evs) n = Some (POST_books body) →
  let w3 := step (step (run evs) (Settle n o1)) (Settle n o2) in
  finished w3 n ∧ submitting (ui w3) = false.
Proof.
  intros (t & Ht & Hr)%awaited_task w3. subst w3.
  destruct (run_task_shape _ _ _ Ht) as [[[q Hq] _]|[(Hop & _ & Hs)|(_ & (i & Hi) & _)]];
    [congruence| |congruence].
  specialize (Hs o1). destruct (failure (request t) o1) as [m|].
  - destruct (settle_ends _ _ _ _ _ Ht Hs) as (Hu & _ & Hfin).
    rewrite (settle_idle_step _ n o2).
    + split; [done|]. by rewrite Hu.
    + intros u. unfold finished in Hfin. congruence.
  - destruct Hs as (p & k' & Hs & _ & Hl).
    destruct (settle_goes_on _ _ _ _ _ _ _ Ht Hs) as (_ & _ & Hp).
    specialize (Hl o2). cbn [resume operation] in Hl.
    destruct (settle_ends _ _ _ o2 _ Hp Hl) as (Hu & _ & Hfin).
    split; [done|]. by rewrite Hu, commit_app.
Qed.

(** C10.  Every submission of the form first clears the error message and
    sets the submitting flag, before the form is looked at.  If the form is
    incomplete the operation ends in the same step with the flag false; if
    not, the flag is true while the create request is awaited.  Whenever a
    create operation ends, at any settlement and whatever happened in
    between, the flag is false; and it does end, after the create request
    or after the list request that follows a success. *)
Theorem submitting_flag (evs : list Event) :
  let w := run evs in
  let w1 := step w Submit in
  let n := List.length (pending w) in
  (∃ rest, trace w1 =
     trace w ++ Called (setError "") :: Called (setSubmitting true) :: rest)
  ∧ (¬ complete (form (ui w)) →
       pending w1 = pending w ∧ submitting (ui w1) = false)
  ∧ (complete (form (ui w)) →
       awaited w1 n = Some (POST_books (form (ui w)))
       ∧ submitting (ui w1) = true
       ∧ ∀ o1 o2,
           let w3 := step (step w1 (Settle n o1)) (Settle n o2) in
           finished w3 n ∧ submitting (ui w3) = false)
  ∧ (∀ k o, owner w k = Some Create →
       finished (step w (Settle k o)) k →
       submitting (ui (step w (Settle k o))) = false).
Proof.
  intros w w1 n. split; [|split; [|split]].
  - subst w1. cbn [step]. rewrite invoke_behaviour.
    destruct (decide (complete (form (ui w)))) as [Hc|Hc].
    + destruct (handleSubmit_complete _ Hc) as [k ->]. by eexists.
    + rewrite (handleSubmit_incomplete _ Hc). by eexists.
  - intros Hc. subst w1. cbn [step].
    rewrite invoke_behaviour, (handleSubmit_incomplete _ Hc). cbn.
    by rewrite app_nil_r.
  - intros Hc. destruct (submit_waits w Hc) as (k & _ & Hn & Hu & _).
    fold w1 n in Hn, Hu.
    assert (awaited w1 n = Some (POST_books (form (ui w)))) as Ha
      by (unfold awaited; by rewrite Hn).
    split; [done|]. split; [by rewrite Hu|]. intros o1 o2.
    subst w w1. rewrite <- run_snoc in *.
    by apply (create_direct _ _ _ o1 o2 Ha).
  - intros k o. apply create_end.
Qed.

Lemma submitting_flag_witness :
  let evs := [Input Form.Title "Dune"; Input Form.Author "Herbert";
              Input Form.Category "Sci-Fi"] in
  let w1 := step (run evs) Submit in
  complete (form (ui (run evs)))
  ∧ submitting (ui w1) = true
  ∧ submitting
      (ui (step (step w1 (Settle 0 (jsonResponse true [dune])))
             (Settle 0 (Rejected "Failed to fetch")))) = false
  ∧ ¬ complete (form (ui (run [])))
  ∧ submitting (ui (step (run []) Submit)) = false.
Proof.
  intros evs w1.
  assert (complete (form (ui (run evs)))) as Hc by (repeat split; discriminate).
  assert (¬ complete (form (ui (run [])))) as Hi by (intros [H _]; by apply H).
  destruct (submitting_flag evs) as (_ & _ & Hflag & _).
  destruct (Hflag Hc) as (_ & Hon & Hoff).
  destruct (submitting_flag []) as (_ & Hbad & _).
  split; [exact Hc|]. split; [exact Hon|].
  split; [exact (proj2 (Hoff (jsonResponse true [dune]) (Rejected "Failed to fetch")))|].
  split; [exact Hi|]. exact (proj2 (Hbad Hi)).
Defined.


(** * Further properties of the handlers and of the render *)

(** ** Settlements by the request awaited *)

Lemma settle_list evs n p o :
  awaited (run evs) n = Some (GET_books p) →
  ∃ op, owner (run evs) n = Some op
        ∧ ui (step (run evs) (Settle n o))
          = commit (listTail o ++ epilogue op) (ui (run evs))
        ∧ trace (step (run evs) (Settle n o))
          = trace (run evs) ++ listTail o ++ epilogue op
        ∧ finished (step (run evs) (Settle n o)) n.
Proof.
  intros (t & Ht & Hr)%awaited_task. exists (operation t).
  split; [unfold owner; by rewrite Ht|].
  destruct (run_task_shape _ _ _ Ht)
    as [[_ Hs]|[(_ & (b & _ & Hb) & _)|(_ & (i & Hi) & _)]]; [|congruence..].
  exact (settle_ends _ _ _ _ _ Ht (Hs o)).
Qed.

Lemma settle_create evs n body o :
  awaited (run evs) n = Some (POST_books body) →
  let w := run evs in
  let w' := step w (Settle n o) in
  match failure (POST_books body) o with
  | Some m =>
      ui w' = commit [Called (setError m); Called (setSubmitting false)] (ui w)
      ∧ trace w' = trace w ++ [Called (setError m); Called (setSubmitting false)]
      ∧ finished w' n
  | None =>
      ∃ p, ui w' = commit [Called (setForm emptyForm); Called (setLoading true)] (ui w)
           ∧ trace w' = trace w ++ [Called (setForm emptyForm);
                                    Called (setLoading true); Sent (GET_books p)]
           ∧ awaited w' n = Some (GET_books p)
           ∧ owner w' n = Some Create
  end.
Proof.
  intros (t & Ht & Hr)%awaited_task w w'. subst w w'.
  destruct (run_task_shape _ _ _ Ht)
    as [[[q Hq] _]|[(Hop & _ & Hs)|(_ & (i & Hi) & _)]]; [congruence| |congruence].
  specialize (Hs o). rewrite Hr in Hs.
  destruct (failure (POST_books body) o) as [m|].
  - exact (settle_ends _ _ _ _ _ Ht Hs).
  - destruct Hs as (p & k' & Hs & _). exists p.
    destruct (settle_goes_on _ _ _ _ _ _ _ Ht Hs) as (Hu & Htr & Hp).
    unfold awaited, owner. rewrite Hp, Hop. done.
Qed.

Lemma settle_delete evs n id o :
  awaited (run evs) n = Some (DELETE_book id) →
  let w := run evs in
  let w' := step w (Settle n o) in
  match o with
  | Rejected _ =>
      ui w' = commit [Called (setError "Delete failed")] (ui w)
      ∧ trace w' = trace w ++ [Called (setError "Delete failed")]
      ∧ finished w' n
  | Fulfilled _ =>
      ∃ p, ui w' = commit [Called (setLoading true)] (ui w)
           ∧ trace w' = trace w ++ [Called (setLoading true); Sent (GET_books p)]
           ∧ awaited w' n = Some (GET_books p)
           ∧ owner w' n = Some Delete
  end.
Proof.
  intros (t & Ht & Hr)%awaited_task w w'. subst w w'.
  destruct (run_task_shape _ _ _ Ht)
    as [[[q Hq] _]|[(_ & (b & _ & Hb) & _)|(Hop & _ & Hs)]]; [congruence..|].
  specialize (Hs o). destruct o as [res|m].
  - destruct Hs as (p & k' & Hs & _). exists p.
    destruct (settle_goes_on _ _ _ _ _ _ _ Ht Hs) as (Hu & Htr & Hp).
    unfold awaited, owner. rewrite Hp, Hop. done.
  - exact (settle_ends _ _ _ _ _ Ht Hs).
Qed.

(** No slot, or a slot whose handler is done: the settlement finds nobody. *)
Lemma settle_nobody w n o : awaited w n = None → step w (Settle n o) = w.
Proof.
  intros Ha. apply settle_idle_step. intros t Ht.
  unfold awaited in Ha. by rewrite Ht in Ha.
Qed.

Lemma awaited_kept w ev n r :
  awaited w n = Some r → (∀ o, ev ≠ Settle n o) →
  awaited (step w ev) n = Some r.
Proof.
  intros (t & Ht & <-)%awaited_task Hev. unfold awaited.
  by rewrite (step_keeps_slot _ _ _ _ Ht Hev).
Qed.

Lemma owner_kept w ev n op :
  owner w n = Some op → (∀ o, ev ≠ Settle n o) →
  owner (step w ev) n = Some op.
Proof.
  intros (t & Ht & <-)%owner_task Hev. unfold owner.
  by rewrite (step_keeps_slot _ _ _ _ Ht Hev).
Qed.

Lemma listTail_success res data :
  listResponse res data →
  listTail (Fulfilled res) = [Called (setBooks data); Called (setLoading false)].
Proof. intros [Hok Hj]. unfold listTail. by rewrite Hok, Hj. Qed.

(** ** The list request: what is sent and what a good answer does *)

Lemma fetchBooks_starts c :
  ∃ k, behaviour (fetchBooks c) =
         ([Called (setLoading true);
           Sent (GET_books (listQuery (query c) (categoryFilter c)))],
          Suspended (GET_books (listQuery (query c) (categoryFilter c))) k).
Proof. eexists. cbn. rewrite listQuery_set. reflexivity. Qed.

Lemma listQuery_entries q cat name v :
  (name, v) ∈ listQuery q cat ↔
  (name = "q" ∧ v = q ∧ q ≠ "") ∨ (name = "category" ∧ v = cat ∧ cat ≠ "").
Proof.
  unfold listQuery. rewrite elem_of_app.
  assert (∀ a b : string, (name, v) ∈ [(a, b)] ↔ name = a ∧ v = b) as Hone.
  { intros a b. rewrite list_elem_of_singleton. split; [by intros [= -> ->]|].
    by intros [-> ->]. }
  destruct (decide (q = "")) as [->|Hq], (decide (cat = "")) as [->|Hc];
    rewrite ?elem_of_nil, ?Hone; intuition congruence.
Qed.

(** X1.  A list request answered with a success status and a readable body
    replaces the book list by the data received, clears the loading flag and
    ends the fetch; it sends nothing and leaves the error message, the form,
    the query, the category filter and the expanded id as they were. *)
Theorem list_fetch_success (evs : list Event) (n : nat)
    (p : URLSearchParams.t) (res : Response) (data : list Book.t) :
  awaited (run evs) n = Some (GET_books p) →
  listResponse res data →
  let w := run evs in
  let w' := step w (Settle n (Fulfilled res)) in
  books (ui w') = data
  ∧ loading (ui w') = false
  ∧ finished w' n
  ∧ requests (trace w') = requests (trace w)
  ∧ error (ui w') = error (ui w)
  ∧ form (ui w') = form (ui w)
  ∧ query (ui w') = query (ui w)
  ∧ categoryFilter (ui w') = categoryFilter (ui w)
  ∧ expandedId (ui w') = expandedId (ui w).
Proof.
  intros Ha Hres w w'. subst w w'.
  destruct (settle_list _ _ _ (Fulfilled res) Ha) as (op & _ & Hu & Ht & Hfin).
  rewrite (listTail_success _ _ Hres) in Hu, Ht. rewrite Hu, Ht, requests_app.
  destruct op; cbn; rewrite ?app_nil_r; done.
Qed.

Lemma list_fetch_success_witness :
  let evs := [Mount; Toggle (IdNum 7)] in
  let res := mkResponse true (Fulfilled "[...]") (Fulfilled [dune]) in
  awaited (run evs) 0 = Some (GET_books [])
  ∧ listResponse res [dune]
  ∧ books (ui (step (run evs) (Settle 0 (Fulfilled res)))) = [dune]
  ∧ loading (ui (step (run evs) (Settle 0 (Fulfilled res)))) = false.
Proof.
  intros evs res.
  assert (listResponse res [dune]) as Hres by (split; reflexivity).
  split; [reflexivity|]. split; [exact Hres|].
  destruct (list_fetch_success evs 0 [] res [dune] eq_refl Hres) as (Hb & Hl & _).
  split; [exact Hb|exact Hl].
Defined.

(** X2.  The Search button, Enter in the search box and the first render
    each send one list request and set the loading flag.  The request has a
    [q] parameter exactly when the query is not empty and a [category]
    parameter exactly when the category filter is not empty, with these
    texts as values; the book list and the error message stay. *)
Theorem search_request (w : World) (ev : Event) :
  ev = Search ∨ ev = Mount →
  let w' := step w ev in
  let params := listQuery (query (ui w)) (categoryFilter (ui w)) in
  requests (trace w') = requests (trace w) ++ [GET_books params]
  ∧ awaited w' (List.length (pending w)) = Some (GET_books params)
  ∧ (∀ name v, (name, v) ∈ params ↔
       (name = "q" ∧ v = query (ui w) ∧ v ≠ "")
       ∨ (name = "category" ∧ v = categoryFilter (ui w) ∧ v ≠ ""))
  ∧ loading (ui w') = true
  ∧ books (ui w') = books (ui w)
  ∧ error (ui w') = error (ui w).
Proof.
  intros Hev w' params.
  assert (w' = invoke ListSearch (fetchBooks (ui w)) w) as ->
    by (subst w'; by destruct Hev as [-> | ->]).
  destruct (fetchBooks_starts (ui w)) as [k Hk].
  rewrite invoke_behaviour, Hk. cbn. rewrite requests_app.
  unfold awaited. cbn. rewrite list_lookup_middle by done.
  repeat split; try done.
  - intros H. apply listQuery_entries in H.
    destruct H as [(-> & -> & ?)|(-> & -> & ?)]; tauto.
  - intros [(-> & -> & ?)|(-> & -> & ?)]; apply listQuery_entries; tauto.
Qed.

Lemma search_request_witness :
  let w := run [Mount; TypeQuery "dune"] in
  requests (trace (step w Search))
  = [GET_books []; GET_books [("q", "dune")]].
Proof.
  intros w.
  exact (proj1 (search_request w Search (or_introl eq_refl))).
Defined.

(** ** The create request *)

(** X3.  Submitting the form sends a create request exactly when title,
    author and category are all non-empty, white space counting as content;
    the request carries the form as it is at that moment, and the form
    itself is not changed by the submission. *)
Theorem submit_request (w : World) :
  requests (trace (step w Submit))
  = requests (trace w)
    ++ (if decide (complete (form (ui w)))
        then [POST_books (form (ui w))] else [])
  ∧ form (ui (step w Submit)) = form (ui w).
Proof.
  cbn [step]. rewrite invoke_behaviour. case_decide as Hc.
  - destruct (handleSubmit_complete _ Hc) as [k ->].
    cbn [fst snd ui trace]. by rewrite requests_app.
  - rewrite (handleSubmit_incomplete _ Hc).
    cbn [fst snd ui trace]. by rewrite requests_app.
Qed.

(** ** Inline handlers *)

(** X4.  Typing in a form control or in the search box, choosing a
    category, the Clear button and the Read / Hide button send no request
    and start no handler, and leave the book list, the error message and the
    loading and submitting flags as they were.  In particular a new choice
    in the category selector fetches nothing. *)
Theorem local_events_are_quiet (w : World) (ev : Event) :
  local_event ev = true →
  let w' := step w ev in
  requests (trace w') = requests (trace w)
  ∧ pending w' = pending w
  ∧ books (ui w') = books (ui w)
  ∧ error (ui w') = error (ui w)
  ∧ loading (ui w') = loading (ui w)
  ∧ submitting (ui w') = submitting (ui w).
Proof.
  destruct ev; try discriminate; intros _; cbn;
    by rewrite requests_app, app_nil_r.
Qed.

Lemma local_events_are_quiet_witness :
  let w := run [Mount; Settle 0 (jsonResponse true [dune])] in
  requests (trace (step w (SelectCategory "Sci-Fi"))) = [GET_books []]
  ∧ categoryFilter (ui (step w (SelectCategory "Sci-Fi"))) = "Sci-Fi".
Proof.
  intros w. split; [|reflexivity].
  exact (proj1 (local_events_are_quiet w (SelectCategory "Sci-Fi") eq_refl)).
Defined.

(** ** Errors stay inside the handlers *)

Lemma exec_outcome p st : (exec p st).2 = (behaviour p).2.
Proof. by rewrite exec_behaviour. Qed.

(** X5.  No handler ever ends with an error nobody caught: not when it is
    invoked, whatever the state and the answer to the confirmation, and not
    when a request it awaits settles, however it settles, in any session. *)
Theorem errors_are_caught (st c : State) (m : string) :
  (exec (fetchBooks c) st).2 ≠ Uncaught m
  ∧ (exec (handleSubmit c) st).2 ≠ Uncaught m
  ∧ (∀ id confirmed, (exec (handleDelete c id confirmed) st).2 ≠ Uncaught m)
  ∧ (∀ evs n t o, pending (run evs) !! n = Some (Some t) →
       (exec (resume t o) st).2 ≠ Uncaught m).
Proof.
  rewrite !exec_outcome. split; [|split; [|split]].
  - by destruct (fetchBooks_starts c) as [k ->].
  - destruct (decide (complete (form c))) as [Hc|Hc].
    + by destruct (handleSubmit_complete _ Hc) as [k ->].
    + by rewrite (handleSubmit_incomplete _ Hc).
  - intros id [|]; by rewrite exec_outcome.
  - intros evs n t o Ht. rewrite exec_outcome.
    destruct (run_task_shape _ _ _ Ht) as [[_ Hs]|[(_ & _ & Hs)|(_ & _ & Hs)]];
      specialize (Hs o).
    + by rewrite Hs.
    + destruct (failure _ o); [by rewrite Hs|].
      by destruct Hs as (p & k' & -> & _).
    + destruct o; [|by rewrite Hs]. by destruct Hs as (p & k' & -> & _).
Qed.

Lemma errors_are_caught_witness :
  ∃ t, pending (run [Mount]) !! 0 = Some (Some t)
       ∧ (exec (resume t (Rejected "Failed to fetch")) initialState).2
         ≠ Uncaught "Failed to fetch".
Proof.
  eexists. split; [reflexivity|].
  exact (proj2 (proj2 (proj2
    (errors_are_caught initialState initialState "Failed to fetch")))
    [Mount] 0 _ (Rejected "Failed to fetch") eq_refl).
Defined.

(** ** The state after the events that invoke a handler *)

Lemma search_ui w ev :
  ev = Search ∨ ev = Mount →
  let r := GET_books (listQuery (query (ui w)) (categoryFilter (ui w))) in
  ui (step w ev) = update (setLoading true) (ui w)
  ∧ awaited (step w ev) (List.length (pending w)) = Some r
  ∧ owner (step w ev) (List.length (pending w)) = Some ListSearch.
Proof.
  intros Hev r.
  assert (step w ev = invoke ListSearch (fetchBooks (ui w)) w) as ->
    by (by destruct Hev as [-> | ->]).
  destruct (fetchBooks_starts (ui w)) as [k Hk].
  rewrite invoke_behaviour, Hk. unfold awaited, owner. cbn.
  by rewrite list_lookup_middle.
Qed.

Lemma submit_ui w :
  ui (step w Submit)
  = if decide (complete (form (ui w)))
    then commit [Called (setError ""); Called (setSubmitting true)] (ui w)
    else commit [Called (setError ""); Called (setSubmitting true);
                 Called (setError "Please fill title, author and category");
                 Called (setSubmitting false)] (ui w).
Proof.
  cbn [step]. rewrite invoke_behaviour. case_decide as Hc.
  - by destruct (handleSubmit_complete _ Hc) as [k ->].
  - by rewrite (handleSubmit_incomplete _ Hc).
Qed.

Lemma submit_owner w :
  complete (form (ui w)) →
  owner (step w Submit) (List.length (pending w)) = Some Create.
Proof.
  intros Hc. destruct (submit_waits w Hc) as (k & _ & Hn & _).
  unfold owner. by rewrite Hn.
Qed.

Lemma click_delete_ui w id confirmed :
  ui (step w (ClickDelete id confirmed)) = ui w.
Proof. by destruct confirmed. Qed.

Lemma click_delete_waits w id :
  awaited (step w (ClickDelete id true)) (List.length (pending w))
  = Some (DELETE_book id)
  ∧ trace (step w (ClickDelete id true)) = trace w ++ [Sent (DELETE_book id)].
Proof.
  cbn [step]. rewrite invoke_behaviour. unfold awaited. cbn.
  by rewrite list_lookup_middle.
Qed.

Lemma listTail_loading o op st :
  loading (commit (listTail o ++ epilogue op) st) = false.
Proof. destruct o as [[[] tx [d|m]]|m], op; reflexivity. Qed.

(** ** The busy flags and the requests in flight *)

Lemma awaited_ne w n m r r' :
  awaited w n = Some r → awaited w m = Some r' → r ≠ r' → n ≠ m.
Proof. intros Hn Hm Hne ->. congruence. Qed.

(** X6.  Whenever the loading flag is set, and so whenever the list pane
    shows the loading text instead of the books, some list request is in
    flight. *)
Theorem loading_means_fetching (evs : list Event) :
  loading (ui (run evs)) = true ∨ pane (render (ui (run evs))) = LoadingText →
  ∃ n p, awaited (run evs) n = Some (GET_books p).
Proof.
  intros H.
  assert (loading (ui (run evs)) = true) as Hl.
  { destruct H as [H|H]; [done|]. unfold render in H. cbn in H.
    destruct (loading (ui (run evs))); [done|].
    by destruct (books (ui (run evs))). }
  clear H. revert Hl. induction evs as [|ev evs IH] using rev_ind; [done|].
  rewrite run_snoc. set (w := run evs) in *. intros Hl.
  assert (loading (ui (step w ev)) = loading (ui w) → (∀ o, ev ≠ Settle o.1 o.2) →
          ∃ n p, awaited (step w ev) n = Some (GET_books p)) as Hsame.
  { intros Heq Hev. rewrite Heq in Hl. destruct (IH Hl) as (n & p & Ha).
    exists n, p. apply awaited_kept; [done|]. intros o. apply (Hev (n, o)). }
  destruct ev as [|fld v| |v|v| | |id|id c|k o]; try (by apply Hsame).
  - destruct (search_ui w Mount) as (_ & Ha & _); eauto.
  - destruct (search_ui w Search) as (_ & Ha & _); eauto.
  - apply Hsame; [|done]. rewrite submit_ui. by case_decide.
  - apply Hsame; [|done]. by rewrite click_delete_ui.
  - clear Hsame. destruct (awaited w k) as [[p|body|id]|] eqn:Hk.
    + destruct (settle_list evs k p o Hk) as (op & _ & Hu & _).
      fold w in Hu. rewrite Hu, listTail_loading in Hl. done.
    + pose proof (settle_create evs k body o Hk) as Hs. cbn zeta in Hs. fold w in Hs.
      destruct (failure (POST_books body) o) as [m|].
      * destruct Hs as (Hu & _). rewrite Hu in Hl.
        destruct (IH Hl) as (n & p & Ha). exists n, p.
        apply awaited_kept; [done|]. intros o' [= -> _]. congruence.
      * destruct Hs as (p & _ & _ & Ha & _). eauto.
    + pose proof (settle_delete evs k id o Hk) as Hs. cbn zeta in Hs. fold w in Hs.
      destruct o as [res|m].
      * destruct Hs as (p & _ & _ & Ha & _). eauto.
      * destruct Hs as (Hu & _). rewrite Hu in Hl.
        destruct (IH Hl) as (n & p & Ha). exists n, p.
        apply awaited_kept; [done|]. intros o' [= -> _]. congruence.
    + rewrite (settle_nobody _ _ _ Hk) in *. by apply IH.
Qed.

Lemma loading_means_fetching_witness :
  loading (ui (run [Search; TypeQuery "dune"])) = true
  ∧ ∃ n p, awaited (run [Search; TypeQuery "dune"]) n = Some (GET_books p).
Proof.
  split; [reflexivity|].
  exact (loading_means_fetching [Search; TypeQuery "dune"] (or_introl eq_refl)).
Defined.

Lemma delete_owner evs n id :
  awaited (run evs) n = Some (DELETE_book id) → owner (run evs) n = Some Delete.
Proof.
  intros (t & Ht & Hr)%awaited_task. unfold owner. rewrite Ht.
  destruct (run_task_shape _ _ _ Ht)
    as [[[q Hq] _]|[(_ & (b & _ & Hb) & _)|(Hop & _)]]; congruence.
Qed.

Lemma listTail_submitting o op st :
  submitting (commit (listTail o ++ epilogue op) st)
  = match op with Create => false | _ => submitting st end.
Proof. destruct o as [[[] tx [d|m]]|m], op; reflexivity. Qed.

(** X7.  Whenever the submitting flag is set, and so whenever the submit
    button is disabled or reads 'Saving...', some create operation is in
    flight. *)
Theorem submitting_means_creating (evs : list Event) :
  submitting (ui (run evs)) = true
  ∨ submit_disabled (render (ui (run evs))) = true
  ∨ submit_label (render (ui (run evs))) = "Saving..." →
  ∃ n, owner (run evs) n = Some Create.
Proof.
  intros H.
  assert (submitting (ui (run evs)) = true) as Hl.
  { destruct H as [H|[H|H]]; [done..|]. cbn in H.
    by destruct (submitting (ui (run evs))). }
  clear H. revert Hl. induction evs as [|ev evs IH] using rev_ind; [done|].
  rewrite run_snoc. set (w := run evs) in *. intros Hl.
  assert (submitting (ui (step w ev)) = submitting (ui w) →
          (∀ n, owner w n = Some Create → ∀ o, ev ≠ Settle n o) →
          ∃ n, owner (step w ev) n = Some Create) as Hsame.
  { intros Heq Hev. rewrite Heq in Hl. destruct (IH Hl) as (n & Ha).
    exists n. apply owner_kept; [done|]. by apply Hev. }
  destruct ev as [|fld v| |v|v| | |id|id c|k o]; try (by apply Hsame).
  - rewrite submit_ui in Hl. case_decide as Hc; [|done].
    exists (List.length (pending w)). by apply submit_owner.
  - apply Hsame; [|done]. by rewrite click_delete_ui.
  - destruct (awaited w k) as [[p|body|id]|] eqn:Hk.
    + destruct (settle_list evs k p o Hk) as (op & Hop & Hu & _).
      fold w in Hu, Hop. rewrite Hu, listTail_submitting in Hl.
      apply Hsame; [by rewrite Hu, listTail_submitting; destruct op|].
      intros n Hn o' [= -> _]. rewrite Hop in Hn. injection Hn as ->. done.
    + pose proof (settle_create evs k body o Hk) as Hs. cbn zeta in Hs. fold w in Hs.
      destruct (failure (POST_books body) o) as [m|].
      * destruct Hs as (Hu & _). by rewrite Hu in Hl.
      * destruct Hs as (p & _ & _ & _ & Ho). eauto.
    + pose proof (settle_delete evs k id o Hk) as Hs. cbn zeta in Hs. fold w in Hs.
      pose proof (delete_owner evs k id Hk) as Hd. fold w in Hd.
      apply Hsame.
      * destruct o as [res|m]; [by destruct Hs as (p & -> & _)|].
        by destruct Hs as (-> & _).
      * intros n Hn o' [= -> _]. congruence.
    + rewrite (settle_nobody _ _ _ Hk) in *. by apply IH.
Qed.

Lemma submitting_means_creating_witness :
  let evs := [Input Form.Title "Dune"; Input Form.Author "Herbert";
              Input Form.Category "Sci-Fi"; Submit; Search] in
  submit_label (render (ui (run evs))) = "Saving..."
  ∧ ∃ n, owner (run evs) n = Some Create.
Proof.
  intros evs. split; [reflexivity|].
  exact (submitting_means_creating evs (or_intror (or_intror eq_refl))).
Defined.

(** ** Who writes which part of the state *)

Lemma listTail_books o op st :
  books (commit (listTail o ++ epilogue op) st)
  = match o with
    | Fulfilled res =>
        if ok res
        then match json res with Fulfilled data => data | Rejected _ => books st end
        else books st
    | Rejected _ => books st
    end.
Proof. destruct o as [[[] tx [d|m]]|m], op; reflexivity. Qed.

Lemma settle_frame evs n o :
  let w := run evs in
  let w' := step w (Settle n o) in
  query (ui w') = query (ui w)
  ∧ categoryFilter (ui w') = categoryFilter (ui w)
  ∧ expandedId (ui w') = expandedId (ui w).
Proof.
  intros w w'. subst w w'.
  destruct (awaited (run evs) n) as [[p|body|id]|] eqn:Hk.
  - destruct (settle_list evs n p o Hk) as (op & _ & -> & _).
    by destruct o as [[[] tx [d|m]]|m], op.
  - pose proof (settle_create evs n body o Hk) as Hs. cbn zeta in Hs.
    destruct (failure (POST_books body) o) as [m|].
    + by destruct Hs as (-> & _).
    + by destruct Hs as (p & -> & _).
  - pose proof (settle_delete evs n id o Hk) as Hs. cbn zeta in Hs.
    destruct o as [res|m]; [by destruct Hs as (p & -> & _)|].
    by destruct Hs as (-> & _).
  - by rewrite (settle_nobody _ _ _ Hk).
Qed.

(** X8.  The book list changes only when a list request is answered with a
    success status and a readable body, and it becomes the data of that
    answer.  No other event, and no other settlement, touches it. *)
Theorem books_written_by_list_answers (evs : list Event) (ev : Event) :
  books (ui (step (run evs) ev)) ≠ books (ui (run evs)) →
  ∃ n p res data,
    ev = Settle n (Fulfilled res)
    ∧ awaited (run evs) n = Some (GET_books p)
    ∧ listResponse res data
    ∧ books (ui (step (run evs) ev)) = data.
Proof.
  set (w := run evs). intros Hne.
  destruct ev as [|fld v| |v|v| | |id|id c|k o]; try (by destruct Hne).
  - destruct Hne. rewrite submit_ui. by case_decide.
  - destruct Hne. by rewrite click_delete_ui.
  - destruct (awaited w k) as [[p|body|id]|] eqn:Hk.
    + destruct (settle_list evs k p o Hk) as (op & _ & Hu & _). fold w in Hu.
      rewrite Hu, listTail_books in Hne. rewrite Hu, listTail_books.
      destruct o as [res|m]; [|by destruct Hne].
      destruct (ok res) eqn:Hok; [|by destruct Hne].
      destruct (json res) as [data|m] eqn:Hj; [|by destruct Hne].
      by exists k, p, res, data.
    + pose proof (settle_create evs k body o Hk) as Hs. cbn zeta in Hs. fold w in Hs.
      destruct Hne. destruct (failure (POST_books body) o) as [m|].
      * by destruct Hs as (-> & _).
      * by destruct Hs as (p & -> & _).
    + pose proof (settle_delete evs k id o Hk) as Hs. cbn zeta in Hs. fold w in Hs.
      destruct Hne. destruct o as [res|m]; [by destruct Hs as (p & -> & _)|].
      by destruct Hs as (-> & _).
    + destruct Hne. by rewrite (settle_nobody _ _ _ Hk).
Qed.

Lemma books_written_by_list_answers_witness :
  let res := mkResponse true (Fulfilled "[...]") (Fulfilled [dune]) in
  books (ui (step (run [Mount]) (Settle 0 (Fulfilled res)))) ≠ books (ui (run [Mount]))
  ∧ ∃ n p res' data,
      Settle 0 (Fulfilled res) = Settle n (Fulfilled res')
      ∧ awaited (run [Mount]) n = Some (GET_books p)
      ∧ listResponse res' data
      ∧ books (ui (step (run [Mount]) (Settle 0 (Fulfilled res)))) = data.
Proof.
  intros res.
  assert (books (ui (step (run [Mount]) (Settle 0 (Fulfilled res))))
          ≠ books (ui (run [Mount]))) as Hne by discriminate.
  split; [exact Hne|].
  exact (books_written_by_list_answers [Mount] (Settle 0 (Fulfilled res)) Hne).
Defined.

(** X9.  The form changes only by typing in one of its controls, which
    writes that field, by the Clear button, or by the success answer to a
    create request; the last two leave it all-empty.  A failed create, a
    list answer and a delete leave it alone. *)
Theorem form_written_by (evs : list Event) (ev : Event) :
  form (ui (step (run evs) ev)) ≠ form (ui (run evs)) →
  (∃ fld v, ev = Input fld v
            ∧ form (ui (step (run evs) ev)) = Form.set fld v (form (ui (run evs))))
  ∨ (ev = Clear ∧ form (ui (step (run evs) ev)) = emptyForm)
  ∨ (∃ n body res, ev = Settle n (Fulfilled res)
                   ∧ awaited (run evs) n = Some (POST_books body)
                   ∧ ok res = true
                   ∧ form (ui (step (run evs) ev)) = emptyForm).
Proof.
  set (w := run evs). intros Hne.
  destruct ev as [|fld v| |v|v| | |id|id c|k o]; try (by destruct Hne).
  - left. by exists fld, v.
  - right; left. done.
  - destruct Hne. rewrite submit_ui. by case_decide.
  - destruct Hne. by rewrite click_delete_ui.
  - right; right. destruct (awaited w k) as [[p|body|id]|] eqn:Hk.
    + destruct (settle_list evs k p o Hk) as (op & _ & Hu & _). fold w in Hu.
      destruct Hne. rewrite Hu. by destruct o as [[[] tx [d|m]]|m], op.
    + pose proof (settle_create evs k body o Hk) as Hs. cbn zeta in Hs. fold w in Hs.
      destruct o as [res|m]; cbn [failure] in Hs.
      * destruct (ok res) eqn:Hok.
        -- destruct Hs as (p & Hu & _). exists k, body, res. by rewrite Hu.
        -- destruct Hne. destruct (text res); by destruct Hs as (-> & _).
      * destruct Hne. by destruct Hs as (-> & _).
    + pose proof (settle_delete evs k id o Hk) as Hs. cbn zeta in Hs. fold w in Hs.
      destruct Hne. destruct o as [res|m]; [by destruct Hs as (p & -> & _)|].
      by destruct Hs as (-> & _).
    + destruct Hne. by rewrite (settle_nobody _ _ _ Hk).
Qed.

Lemma form_written_by_witness :
  let evs := [Input Form.Title "Dune"] in
  form (ui (step (run evs) Clear)) ≠ form (ui (run evs))
  ∧ form (ui (step (run evs) Clear)) = emptyForm.
Proof.
  intros evs.
  assert (form (ui (step (run evs) Clear)) ≠ form (ui (run evs))) as Hne
    by discriminate.
  split; [exact Hne|].
  destruct (form_written_by evs Clear Hne)
    as [(fld & v & He & _)|[(_ & Hf)|(n & body & res & He & _)]];
    [discriminate He|exact Hf|discriminate He].
Defined.

(** X10.  The query changes only by typing in the search box, the category
    filter only by choosing in the selector, and the expanded id only by a
    Read / Hide button.  No request, answer or other handler resets them:
    a refreshed list or a deleted book leaves the expanded id standing, and
    a created book leaves the search as typed. *)
Theorem search_controls_written_by (evs : list Event) (ev : Event) :
  let w := run evs in
  let w' := step w ev in
  (query (ui w') ≠ query (ui w) → ∃ v, ev = TypeQuery v ∧ query (ui w') = v)
  ∧ (categoryFilter (ui w') ≠ categoryFilter (ui w) →
       ∃ v, ev = SelectCategory v ∧ categoryFilter (ui w') = v)
  ∧ (expandedId (ui w') ≠ expandedId (ui w) → ∃ id, ev = Toggle id).
Proof.
  intros w w'. subst w'.
  assert (∀ ev', (∀ v, ev' ≠ TypeQuery v) → (∀ v, ev' ≠ SelectCategory v) →
                 (∀ id, ev' ≠ Toggle id) →
                 query (ui (step w ev')) = query (ui w)
                 ∧ categoryFilter (ui (step w ev')) = categoryFilter (ui w)
                 ∧ expandedId (ui (step w ev')) = expandedId (ui w)) as Hframe.
  { intros [|fld v| |v|v| | |id|id c|k o] Hq Hc Ht; try done.
    - by destruct (Hq v).
    - by destruct (Hc v).
    - rewrite submit_ui. by case_decide.
    - by destruct (Ht id).
    - by rewrite click_delete_ui.
    - apply settle_frame. }
  destruct ev as [|fld v| |v|v| | |id|id c|k o];
    try (match goal with
         | |- context [step w ?e] =>
             destruct (Hframe e) as (? & ? & ?); [done..|]
         end; split; [|split]; intros Hne; by destruct Hne).
  - split; [intros _; by exists v|]. split; intros Hne; by destruct Hne.
  - split; [intros Hne; by destruct Hne|].
    split; [intros _; by exists v|intros Hne; by destruct Hne].
  - split; [intros Hne; by destruct Hne|].
    split; [intros Hne; by destruct Hne|]. intros _. by exists id.
Qed.

Lemma search_controls_written_by_witness :
  let evs := [Mount; Settle 0 (jsonResponse true [dune]); Toggle (IdNum 1);
              ClickDelete (IdNum 1) true; Settle 1 (textResponse true "")] in
  expandedId (ui (run evs)) = Some (IdNum 1)
  ∧ (expandedId (ui (step (run evs) (Settle 1 (jsonResponse true []))))
     = Some (IdNum 1)).
Proof.
  intros evs. split; [reflexivity|].
  destruct (decide (expandedId (ui (step (run evs) (Settle 1 (jsonResponse true []))))
                    = expandedId (ui (run evs)))) as [He|Hne]; [exact He|].
  destruct (proj2 (proj2 (search_controls_written_by evs
              (Settle 1 (jsonResponse true [])))) Hne) as [id He].
  discriminate He.
Defined.

(** ** Answers out of order *)

(** X11.  List requests are not sequenced.  With two of them in flight, a
    good answer to one fills the book list and clears the loading flag while
    the other is still awaited, and a good answer to the other then replaces
    the list: the books are those of the answer that arrives last, whichever
    request was sent first. *)
Theorem last_answer_wins (evs : list Event) (i j : nat)
    (p q : URLSearchParams.t) (res1 res2 : Response) (data1 data2 : list Book.t) :
  awaited (run evs) i = Some (GET_books p) →
  awaited (run evs) j = Some (GET_books q) →
  i ≠ j →
  listResponse res1 data1 →
  listResponse res2 data2 →
  let w1 := step (run evs) (Settle i (Fulfilled res1)) in
  let w2 := step w1 (Settle j (Fulfilled res2)) in
  books (ui w1) = data1
  ∧ loading (ui w1) = false
  ∧ awaited w1 j = Some (GET_books q)
  ∧ books (ui w2) = data2.
Proof.
  intros Hi Hj Hne H1 H2 w1 w2.
  assert (awaited w1 j = Some (GET_books q)) as Hj1.
  { apply awaited_kept; [done|]. intros o [= ? _]. done. }
  destruct (settle_list _ _ _ (Fulfilled res1) Hi) as (op & _ & Hu & _).
  fold w1 in Hu. rewrite (listTail_success _ _ H1) in Hu.
  subst w2 w1. rewrite <- run_snoc in *.
  destruct (settle_list _ _ _ (Fulfilled res2) Hj1) as (op' & _ & Hu' & _).
  rewrite (listTail_success _ _ H2) in Hu'. rewrite Hu', Hu.
  by destruct op, op'.
Qed.

Lemma last_answer_wins_witness :
  let evs := [Search; TypeQuery "dune"; Search] in
  let old := mkResponse true (Fulfilled "[...]") (Fulfilled [bookOf "Fiction"; dune]) in
  let new := mkResponse true (Fulfilled "[...]") (Fulfilled [dune]) in
  awaited (run evs) 0 = Some (GET_books [])
  ∧ awaited (run evs) 1 = Some (GET_books [("q", "dune")])
  ∧ books (ui (step (step (run evs) (Settle 1 (Fulfilled new)))
                 (Settle 0 (Fulfilled old))))
    = [bookOf "Fiction"; dune].
Proof.
  intros evs old new. split; [reflexivity|]. split; [reflexivity|].
  assert (listResponse new [dune]) as Hn by (split; reflexivity).
  assert (listResponse old [bookOf "Fiction"; dune]) as Ho by (split; reflexivity).
  assert (1 ≠ 0)%nat as Hne by discriminate.
  exact (proj2 (proj2 (proj2
    (last_answer_wins evs 1 0 _ _ new old _ _ eq_refl eq_refl Hne Hn Ho)))).
Defined.

(** ** Whole operations *)

Lemma delete_waits w id :
  ∃ k, waits (handleDelete (ui w) id true) (DELETE_book id) k
       ∧ pending (step w (ClickDelete id true)) !! List.length (pending w)
         = Some (Some (mkTask Delete (DELETE_book id) k)).
Proof.
  eexists. split; [reflexivity|].
  cbn [step]. rewrite invoke_behaviour. cbn. by rewrite list_lookup_middle.
Qed.

Lemma listTail_error o op st p :
  error (commit (listTail o ++ epilogue op) st)
  = match failure (GET_books p) o with Some m => m | None => error st end.
Proof. destruct o as [[[] tx [d|m]]|m], op; reflexivity. Qed.

Lemma listTail_requests o op : requests (listTail o ++ epilogue op) = [].
Proof. destruct o as [[[] tx [d|m]]|m], op; reflexivity. Qed.

(** X12.  A create from a complete form whose request is answered with a
    success status, followed by the answer to the list request: two requests
    are sent, the create with the form as submitted and the list with the
    query and filter as submitted.  Afterwards the form is all-empty and
    both busy flags are false, whatever the list answer.  If the list answer
    is good the books are its data and no error message is shown; if it is a
    failure the books are those held before and the message is the
    description of that failure, although the book was created. *)
Theorem create_then_refresh (w : World) (res : Response) (o : Settled Response) :
  complete (form (ui w)) →
  ok res = true →
  let n := List.length (pending w) in
  let r := GET_books (listQuery (query (ui w)) (categoryFilter (ui w))) in
  let w3 := step (step (step w Submit) (Settle n (Fulfilled res))) (Settle n o) in
  requests (trace w3) = requests (trace w) ++ [POST_books (form (ui w)); r]
  ∧ finished w3 n
  ∧ form (ui w3) = emptyForm
  ∧ submitting (ui w3) = false
  ∧ loading (ui w3) = false
  ∧ match failure r o with
    | Some m => error (ui w3) = m ∧ books (ui w3) = books (ui w)
    | None =>
        error (ui w3) = ""
        ∧ ∀ res' data, o = Fulfilled res' → json res' = Fulfilled data →
                       books (ui w3) = data
    end.
Proof.
  intros Hc Hok n r w3.
  destruct (submit_waits w Hc) as (k & Hw & Hn & Hu1 & Ht1). fold n in Hn.
  apply handleSubmit_waits in Hw as (_ & _ & Hk).
  specialize (Hk (Fulfilled res)). cbn [failure] in Hk. rewrite Hok in Hk.
  cbv zeta in Hk. destruct Hk as (k' & Hb & Hk'). fold r in Hb.
  destruct (settle_goes_on _ _ _ (Fulfilled res) _ _ _ Hn Hb) as (Hu2 & Ht2 & Hn2).
  destruct (settle_ends _ _ _ o _ Hn2 (Hk' o)) as (Hu3 & Ht3 & Hfin).
  fold w3 in Hu3, Ht3, Hfin.
  split.
  { rewrite Ht3, requests_app, listTail_requests, app_nil_r.
    rewrite Ht2, Ht1, !requests_app. cbn. by rewrite <- app_assoc. }
  rewrite Hu3, Hu2, Hu1. split; [done|].
  split; [by destruct o as [[[] tx [d|m]]|m]|].
  split; [by rewrite listTail_submitting|].
  split; [by rewrite listTail_loading|].
  unfold r. rewrite (listTail_error _ _ _ (listQuery (query (ui w)) (categoryFilter (ui w)))).
  rewrite listTail_books.
  destruct o as [[[] tx [d|m]]|m]; cbn; try done.
  split; [done|]. by intros res' data [= <-] [= <-].
Qed.

Lemma create_then_refresh_witness :
  let w := run [Input Form.Title "Dune"; Input Form.Author "Herbert";
                Input Form.Category "Sci-Fi"; TypeQuery "du"] in
  let w3 := step (step (step w Submit) (Settle 0 (textResponse true "{}")))
              (Settle 0 (Rejected "Failed to fetch")) in
  complete (form (ui w))
  ∧ form (ui w3) = emptyForm
  ∧ error (ui w3) = "Failed to fetch"
  ∧ requests (trace w3) = [POST_books (form (ui w)); GET_books [("q", "du")]].
Proof.
  intros w w3.
  assert (complete (form (ui w))) as Hc by (repeat split; discriminate).
  split; [exact Hc|].
  destruct (create_then_refresh w
              (mkResponse true (Fulfilled "{}") (Rejected "Unexpected token"))
              (Rejected "Failed to fetch") Hc eq_refl)
    as (Hr & _ & Hf & _ & _ & He & _).
  split; [exact Hf|]. split; [exact He|exact Hr].
Defined.

(** X13.  A confirmed delete whose request is answered, with any status,
    followed by the answer to the list request: two requests are sent, the
    delete for the id clicked and the list with the query and filter at the
    time of the click.  Afterwards the loading flag is false and the form
    and the expanded id are as before.  If the list answer is good the books
    are its data and the error message is the one shown before the click; a
    failing list answer leaves the books and shows its description. *)
Theorem delete_then_refresh (w : World) (id : BookId) (res : Response)
    (o : Settled Response) :
  let n := List.length (pending w) in
  let r := GET_books (listQuery (query (ui w)) (categoryFilter (ui w))) in
  let w3 := step (step (step w (ClickDelete id true)) (Settle n (Fulfilled res)))
              (Settle n o) in
  requests (trace w3) = requests (trace w) ++ [DELETE_book id; r]
  ∧ finished w3 n
  ∧ loading (ui w3) = false
  ∧ form (ui w3) = form (ui w)
  ∧ expandedId (ui w3) = expandedId (ui w)
  ∧ match failure r o with
    | Some m => error (ui w3) = m ∧ books (ui w3) = books (ui w)
    | None =>
        error (ui w3) = error (ui w)
        ∧ ∀ res' data, o = Fulfilled res' → json res' = Fulfilled data →
                       books (ui w3) = data
    end.
Proof.
  intros n r w3.
  destruct (delete_waits w id) as (k & Hw & Hn). fold n in Hn.
  destruct (click_delete_waits w id) as (_ & Ht1).
  pose proof (click_delete_ui w id true) as Hu1.
  apply handleDelete_waits in Hw as (_ & Hk).
  specialize (Hk (Fulfilled res)). cbv beta iota zeta in Hk.
  destruct Hk as (k' & Hb & Hk'). fold r in Hb.
  destruct (settle_goes_on _ _ _ (Fulfilled res) _ _ _ Hn Hb) as (Hu2 & Ht2 & Hn2).
  destruct (settle_ends _ _ _ o _ Hn2 (Hk' o)) as (Hu3 & Ht3 & Hfin).
  fold w3 in Hu3, Ht3, Hfin.
  split.
  { rewrite Ht3, requests_app, listTail_requests, app_nil_r.
    rewrite Ht2, Ht1, !requests_app. cbn. by rewrite <- app_assoc. }
  rewrite Hu3, Hu2, Hu1. split; [done|].
  split; [by rewrite listTail_loading|].
  split; [by destruct o as [[[] tx [d|m]]|m]|].
  split; [by destruct o as [[[] tx [d|m]]|m]|].
  unfold r. rewrite (listTail_error _ _ _ (listQuery (query (ui w)) (categoryFilter (ui w)))).
  rewrite listTail_books.
  destruct o as [[[] tx [d|m]]|m]; cbn; try done.
  split; [done|]. by intros res' data [= <-] [= <-].
Qed.

Lemma delete_then_refresh_witness :
  let w := run [Mount; Settle 0 (jsonResponse true [dune]); Toggle (IdNum 1)] in
  let w3 := step (step (step w (ClickDelete (IdNum 1) true))
                    (Settle 1 (textResponse false "Not Found")))
              (Settle 1 (jsonResponse true [])) in
  requests (trace w3) = [GET_books []; DELETE_book (IdNum 1); GET_books []]
  ∧ books (ui w3) = []
  ∧ expandedId (ui w3) = Some (IdNum 1).
Proof.
  intros w w3.
  destruct (delete_then_refresh w (IdNum 1)
              (mkResponse false (Fulfilled "Not Found") (Rejected "Unexpected token"))
              (jsonResponse true []))
    as (Hr & _ & _ & _ & Hx & _ & Hb).
  split; [exact Hr|]. split; [exact (Hb _ [] eq_refl eq_refl)|exact Hx].
Defined.

(** ** Typing in the form *)

(** X14.  Typing in a control of the form writes the text typed into the
    field of that control and leaves the other six fields as they were. *)
Theorem input_writes_field (w : World) (fld : Form.field) (v : string) :
  let f' := form (ui (step w (Input fld v))) in
  formField fld f' = v
  ∧ ∀ fld', fld' ≠ fld → formField fld' f' = formField fld' (form (ui w)).
Proof.
  cbn. split; [by destruct fld|].
  intros fld' Hne. by destruct fld, fld'.
Qed.

(** ** The category options *)

Lemma trimEnd_idem s : JS.trimEnd (JS.trimEnd s) = JS.trimEnd s.
Proof.
  induction s as [|c s IH]; [done|]. cbn [JS.trimEnd].
  destruct (JS.trimEnd s) as [|a r] eqn:E.
  - destruct (JS.is_space c) eqn:Hc; [done|]. cbn. by rewrite Hc.
  - cbn [JS.trimEnd]. cbn [JS.trimEnd] in IH. by rewrite IH.
Qed.

(** A text that does not start with white space. *)
Lemma trimStart_fixed s :
  match s with String c _ => JS.is_space c = false | EmptyString => True end →
  JS.trimStart s = s.
Proof. destruct s as [|c s]; [done|]. cbn. by intros ->. Qed.

Lemma trimStart_head s :
  match JS.trimStart s with
  | String c _ => JS.is_space c = false
  | EmptyString => True
  end.
Proof.
  induction s as [|c s IH]; [done|]. cbn.
  by destruct (JS.is_space c) eqn:Hc.
Qed.

Lemma trimEnd_head s :
  match s with String c _ => JS.is_space c = false | EmptyString => True end →
  match JS.trimEnd s with
  | String c _ => JS.is_space c = false
  | EmptyString => True
  end.
Proof.
  destruct s as [|c s]; [done|]. cbn. intros Hc.
  destruct (JS.trimEnd s); [by rewrite Hc|done].
Qed.

Lemma trim_idem s : JS.trim (JS.trim s) = JS.trim s.
Proof.
  unfold JS.trim.
  rewrite (trimStart_fixed (JS.trimEnd (JS.trimStart s))).
  - apply trimEnd_idem.
  - apply trimEnd_head, trimStart_head.
Qed.

(** X15.  Every category option is a non-empty text with no white space at
    either end: trimming it again gives the same text. *)
Theorem options_are_trimmed (books : list Book.t) (c : string) :
  c ∈ categories books → JS.trim c = c ∧ c ≠ "".
Proof.
  intros (Hne & b & _ & ->)%categories_elem. split; [apply trim_idem|done].
Qed.

Lemma options_are_trimmed_witness :
  "self-help" ∈ categories [bookOf "  self-help "; bookOf "Fiction"]
  ∧ JS.trim "self-help" = "self-help".
Proof.
  assert ("self-help" ∈ categories [bookOf "  self-help "; bookOf "Fiction"])
    as H by (apply list_elem_of_In; cbv; tauto).
  split; [exact H|]. exact (proj1 (options_are_trimmed _ _ H)).
Defined.

(** X16.  The category options depend only on which non-blank trimmed
    categories occur among the books: two lists in which the same ones occur
    give the same options, whatever the order of the books and however often
    a category occurs. *)
Theorem options_ignore_order (books1 books2 : list Book.t) :
  (∀ c, c ≠ "" →
     (∃ b, b ∈ books1 ∧ c = JS.trim (Book.category b))
     ↔ (∃ b, b ∈ books2 ∧ c = JS.trim (Book.category b))) →
  categories books1 = categories books2.
Proof.
  intros H. apply (StronglySorted_unique lex_le); [apply categories_sorted..|].
  apply NoDup_Permutation; [apply categories_NoDup..|].
  intros c. rewrite !categories_elem.
  split; intros [Hne Hb]; (split; [done|]); by apply (H c Hne).
Qed.

Lemma options_ignore_order_witness :
  categories [bookOf "Fiction"; bookOf "Self-help"; bookOf " Fiction"]
  = categories [bookOf "Self-help"; bookOf "Fiction"].
Proof.
  apply options_ignore_order. intros c Hc.
  split; intros (b & Hb & ->); apply list_elem_of_In in Hb; cbn in Hb.
  - destruct Hb as [<-|[<-|[<-|[]]]].
    + exists (bookOf "Fiction"). split; [|reflexivity].
      apply list_elem_of_In. cbn. tauto.
    + exists (bookOf "Self-help"). split; [|reflexivity].
      apply list_elem_of_In. cbn. tauto.
    + exists (bookOf "Fiction"). split; [|reflexivity].
      apply list_elem_of_In. cbn. tauto.
  - destruct Hb as [<-|[<-|[]]].
    + exists (bookOf "Self-help"). split; [|reflexivity].
      apply list_elem_of_In. cbn. tauto.
    + exists (bookOf "Fiction"). split; [|reflexivity].
      apply list_elem_of_In. cbn. tauto.
Defined.

(** ** What is rendered *)

Lemma option_values st :
  (options (render st)).*1 = "" :: categories (books st).
Proof.
  cbn. f_equal. induction (categories (books st)) as [|c l IH]; [done|].
  cbn. by rewrite IH.
Qed.

(** X17.  The category selector offers 'All categories' with the empty
    value first and then one option per non-blank trimmed category of the
    books held, in ascending order, each with its value as label.  The
    values, the empty one included, are pairwise distinct, so no two options
    share a key. *)
Theorem select_options (st : State) :
  (∃ rest, options (render st) = ("", "All categories") :: rest
           ∧ rest.*1 = categories (books st)
           ∧ Forall (λ o, o.2 = o.1) rest)
  ∧ NoDup (options (render st)).*1
  ∧ StronglySorted lex_le (categories (books st))
  ∧ ∀ c, c ∈ (options (render st)).*1 ↔
         c = "" ∨ ∃ b, b ∈ books st ∧ c = JS.trim (Book.category b).
Proof.
  pose proof (option_values st) as Hv. split; [|split; [|split]].
  - eexists. split; [reflexivity|]. split; [by injection Hv|].
    apply Forall_forall. intros o Ho. apply list_elem_of_In in Ho.
    apply in_map_iff in Ho as (c & <- & _). done.
  - rewrite Hv. apply NoDup_cons. split; [|apply categories_NoDup].
    intros (Hne & _)%categories_elem. done.
  - apply categories_sorted.
  - intros c. rewrite Hv, elem_of_cons, categories_elem.
    destruct (decide (c = "")) as [->|Hne]; [tauto|]. tauto.
Qed.

Lemma shown_summary st (l : list Book.t) (b : Book.t) :
  expandedId st = Some (Book.id b) →
  b ∈ l → NoDup (Book.id <$> l) →
  omap row_summary (List.map (renderRow st) l)
  = [JS.or (Book.text_summary b) "No text summary provided."].
Proof.
  intros Hx. induction l as [|a l IH]; [by intros ?%elem_of_nil|].
  rewrite fmap_cons, NoDup_cons. intros Hb [Ha Hl].
  cbn [List.map omap list_omap renderRow row_summary].
  apply elem_of_cons in Hb as [<-|Hb].
  - rewrite (proj2 (expanded_id st b) Hx).
    f_equal. clear IH Hl. induction l as [|a l IH]; [done|].
    rewrite fmap_cons, not_elem_of_cons in Ha. destruct Ha as [Ha1 Ha2].
    cbn [List.map omap list_omap renderRow row_summary].
    destruct (expanded st a) eqn:E; [|by apply IH].
    apply expanded_id in E. congruence.
  - destruct (expanded st a) eqn:E; [|by apply IH].
    apply expanded_id in E. destruct Ha.
    assert (Book.id a = Book.id b) as -> by congruence.
    by apply list_elem_of_fmap_2.
Qed.

Lemma row_keys st (l : list Book.t) :
  row_key <$> List.map (renderRow st) l = Book.id <$> l.
Proof.
  induction l as [|a l IH]; [done|].
  cbn [List.map]. rewrite !fmap_cons, IH. done.
Qed.

Lemma or_fallback s t : t ≠ "" → JS.or s t ≠ "".
Proof. by destruct s. Qed.

(** X18.  With the list shown and the ids of its books distinct, the Read
    button of a book that is not expanded leaves exactly one summary box on
    screen, the one of that book: it holds the text summary of the book, or
    'No text summary provided.' when the book has none, and is never empty.
    The rows are those of the books, in the order received. *)
Theorem one_summary_shown (evs : list Event) (b : Book.t) :
  b ∈ books (ui (run evs)) →
  NoDup (Book.id <$> books (ui (run evs))) →
  loading (ui (run evs)) = false →
  expanded (ui (run evs)) b = false →
  let w' := step (run evs) (Toggle (Book.id b)) in
  let text := JS.or (Book.text_summary b) "No text summary provided." in
  ∃ rows, pane (render (ui w')) = Rows rows
          ∧ row_key <$> rows = Book.id <$> books (ui (run evs))
          ∧ omap row_summary rows = [text]
          ∧ text ≠ "".
Proof.
  intros Hb Hnd Hl Hx w' text. set (w := run evs) in *.
  assert (expandedId (ui w') = Some (Book.id b)) as Hid.
  { subst w'. cbn. rewrite bool_decide_eq_false_2; [done|].
    intros E. apply expanded_id in E. congruence. }
  exists (List.map (renderRow (ui w')) (books (ui w))). split; [|split; [|split]].
  - subst w'. unfold render. cbn. rewrite Hl.
    destruct (books (ui w)); [by apply elem_of_nil in Hb|done].
  - apply row_keys.
  - by apply shown_summary.
  - by apply or_fallback.
Qed.

Lemma one_summary_shown_witness :
  let evs := [Mount; Settle 0 (jsonResponse true [dune; bookOf "Fiction"])] in
  dune ∈ books (ui (run evs))
  ∧ ∃ rows, pane (render (ui (step (run evs) (Toggle (IdNum 1))))) = Rows rows
            ∧ omap row_summary rows = ["No text summary provided."].
Proof.
  intros evs.
  assert (dune ∈ books (ui (run evs))) as Hb by (apply list_elem_of_In; cbn; tauto).
  assert (NoDup (Book.id <$> books (ui (run evs)))) as Hnd.
  { cbn. apply NoDup_cons. split.
    - intros H%list_elem_of_In. cbn in H. destruct H as [H|[]]. discriminate H.
    - apply NoDup_singleton. }
  split; [exact Hb|].
  destruct (one_summary_shown evs dune Hb Hnd eq_refl eq_refl)
    as (rows & Hp & _ & Hs & _).
  exists rows. split; [exact Hp|exact Hs].
Defined.
